(** * Bazarr: subtitle search orchestration ([bazarr/get_subtitle.py])

    A shallow embedding of the adaptive search gate ([is_search_active],
    [updateFailedAttempts]), of the language-set construction of
    [generate_subtitles] and [manual_search], of the series skip rule and of
    the minimum-score resolution, followed by the properties of the
    specification that concern them.

    Conventions of the embedding.
    - Python [str] is [string]; characters are code points below 256, and
      [<] on [str] is the code-point lexicographic order ([String.ltb]).
    - A [datetime] is naive, as every [datetime] of the module: the reading
      of the local wall clock, as the number of microseconds (its
      resolution) between 1970-01-01 00:00 on that clock and the reading.  A
      [timedelta] is a number of microseconds, and an attempt timestamp is
      the number of microseconds since the epoch.  The local time of the
      platform, which takes the one to the other, is a parameter
      ([localtime]).  [datetime + timedelta] raises [OverflowError] outside
      the years 1 to 9999.
    - The clock ([datetime.now()]) and the configuration ([settings.general])
      are explicit arguments.
    - Code that raises returns [Raise e]; code that returns [v] returns
      [Ok v]. *)

From Stdlib Require Import ZArith String Ascii List Lia Bool.
From Stdlib Require Import Sorting.Sorted Sorting.Permutation.
From stdpp Require Import base list gmap sets strings pretty.

Local Open Scope string_scope.
Local Open Scope list_scope.
Local Open Scope Z_scope.

(** ** Python primitives *)

Module Py.

Inductive exn := ValueError | OverflowError | SyntaxError.

Inductive result (A : Type) :=
| Ok (a : A)
| Raise (e : exn).
Arguments Ok {A} a.
Arguments Raise {A} e.

Definition bind {A B} (r : result A) (k : A -> result B) : result B :=
  match r with
  | Ok a => k a
  | Raise e => Raise e
  end.

(** [s.endswith(suffix)] *)
Fixpoint endswith (s suffix : string) : bool :=
  String.eqb s suffix ||
  match s with
  | EmptyString => false
  | String _ s' => endswith s' suffix
  end.

(** [s[:1]] *)
Definition first1 (s : string) : string :=
  match s with
  | EmptyString => EmptyString
  | String c _ => String c EmptyString
  end.

Definition digit_of_ascii (c : ascii) : option Z :=
  let n := Z.of_nat (nat_of_ascii c) in
  if (48 <=? n) && (n <=? 57) then Some (n - 48) else None.

(** The white space [int] skips at both ends of a text: tab to carriage
    return, the blank, NEL and the no-break space. *)
Definition is_space (c : ascii) : bool :=
  let n := Z.of_nat (nat_of_ascii c) in
  ((9 <=? n) && (n <=? 13)) || (n =? 32) || (n =? 133) || (n =? 160).

Fixpoint lstrip (s : string) : string :=
  match s with
  | EmptyString => EmptyString
  | String c r => if is_space c then lstrip r else s
  end.

Fixpoint rstrip (s : string) : string :=
  match s with
  | EmptyString => EmptyString
  | String c r =>
      match rstrip r with
      | EmptyString => if is_space c then EmptyString else String c EmptyString
      | r' => String c r'
      end
  end.

(** The digits after the first one: each is a decimal digit, or an
    underscore followed by a decimal digit. *)
Fixpoint digits_value (s : string) (acc : Z) : option Z :=
  match s with
  | EmptyString => Some acc
  | String c r =>
      if Ascii.eqb c "_" then
        match r with
        | EmptyString => None
        | String c' r' =>
            match digit_of_ascii c' with
            | Some d => digits_value r' (10 * acc + d)
            | None => None
            end
        end
      else
        match digit_of_ascii c with
        | Some d => digits_value r (10 * acc + d)
        | None => None
        end
  end.

(** A decimal digit, then [digits_value]. *)
Definition unsigned_value (s : string) : option Z :=
  match s with
  | EmptyString => None
  | String c r =>
      match digit_of_ascii c with
      | Some d => digits_value r d
      | None => None
      end
  end.

(** [int(s)] on a text: white space at both ends is skipped; what is left
    is an optional sign and decimal digits, with single underscores allowed
    between two digits.  Any other text raises [ValueError].  (The limit on
    the number of digits of recent versions, 4300 by default, is left
    out.) *)
Definition int (s : string) : result Z :=
  let s := rstrip (lstrip s) in
  let value :=
    match s with
    | String "-" r => Z.opp <$> unsigned_value r
    | String "+" r => unsigned_value r
    | _ => unsigned_value s
    end in
  match value with
  | Some n => Ok n
  | None => Raise ValueError
  end.

(** [sorted(l, key=key)]: Python's sort is stable and compares keys with
    [<] only.  The stable sort of a list is unique, so it is given here by
    insertion: an element goes in front of the first element of the sorted
    tail whose key is not smaller than its own. *)
Section Sorted.
Context {A K : Type} (ltb : K -> K -> bool) (key : A -> K).

Fixpoint insert_sorted (x : A) (l : list A) : list A :=
  match l with
  | [] => [x]
  | y :: r => if ltb (key y) (key x) then y :: insert_sorted x r
              else x :: y :: r
  end.

Fixpoint sorted (l : list A) : list A :=
  match l with
  | [] => []
  | x :: r => insert_sorted x (sorted r)
  end.

(** The order the sort establishes between neighbours: the key of [y]
    is not smaller than the key of [x]. *)
Definition key_le (x y : A) : Prop := ltb (key y) (key x) = false.
End Sorted.

(** [l[-1]] of a list known to start with [d] *)
Definition last_of {A} (d : A) (l : list A) : A := List.last l d.

End Py.

Import Py.

#[global] Instance result_bind : MBind result := fun A B k r => bind r k.

(** ** Time *)

Abbreviation datetime := Z (only parsing).
Abbreviation timedelta := Z (only parsing).

Definition microsecond_per_day : Z := 86400 * 1000000.

(** [timedelta(days=n)] and [timedelta(weeks=n)] *)
Definition timedelta_days (n : Z) : timedelta := n * microsecond_per_day.
Definition timedelta_weeks (n : Z) : timedelta := 7 * n * microsecond_per_day.

(** [datetime.min] and [datetime.max]: 0001-01-01 00:00:00 and
    9999-12-31 23:59:59.999999. *)
Definition datetime_min : datetime := -62135596800 * 1000000.
Definition datetime_max : datetime := 253402300799 * 1000000 + 999999.

(** [d + delta] on a [datetime]: [OverflowError] when the sum is not a
    [datetime]. *)
Definition datetime_add (d : datetime) (delta : timedelta) : result datetime :=
  if (datetime_min <=? d + delta) && (d + delta <=? datetime_max) then Ok (d + delta)
  else Raise OverflowError.

(** The local time of the platform, which the module reaches through
    [datetime.fromtimestamp] and [datetime.timestamp]: time zone, daylight
    saving and the range of the C library are the platform's. *)
Class localtime := {
  (** [datetime.fromtimestamp(t)]: the wall clock at the instant [t], or
      [None] when the call raises; what it raises on a number is
      [OverflowError], [ValueError] or [OSError]. *)
  local_datetime : Z → option datetime;
  (** [datetime.timestamp(d)] of a naive [d] *)
  timestamp : datetime → Z
}.

(** [datetime.fromtimestamp(t)].  The source catches the three exceptions
    alike, and one stands for them. *)
Definition fromtimestamp `{tz : localtime} (t : Z) : result datetime :=
  match local_datetime t with
  | Some d => Ok d
  | None => Raise OverflowError
  end.

(** ** Attempt history *)

(** One entry [[language, timestamp]] of the column [failedAttempts];
    [x.1] is [x[0]] and [x.2] is [x[1]]. *)
Abbreviation attempt := (string * Z)%type (only parsing).

(** The column [failedAttempts], by what [ast.literal_eval] makes of it.
    The column holds what [updateFailedAttempts] wrote, the [str] of a list
    of [[language, timestamp]] lists, or NULL, or a literal of another
    kind.  These are the values the docstrings give the argument
    [attempt_string].  A list whose entries are of another shape is not
    among them. *)
Inductive failedAttempts :=
| Malformed                      (* None, or a text that raises ValueError *)
| Scalar                         (* a literal that is not a list *)
| AttemptList (l : list attempt).

(** The argument [attempt_string] of the gate: a value of the column, or a
    text that is no Python expression (the empty text, a list cut short),
    on which [literal_eval] raises [SyntaxError]. *)
Inductive attempt_text :=
| Column (h : failedAttempts)
| NotPython.

Coercion Column : failedAttempts >-> attempt_text.

Inductive literal :=
| LitOther
| LitList (l : list attempt).

(** [ast.literal_eval(attempt_string)] *)
Definition literal_eval (s : attempt_text) : result literal :=
  match s with
  | NotPython => Raise SyntaxError
  | Column Malformed => Raise ValueError
  | Column Scalar => Ok LitOther
  | Column (AttemptList l) => Ok (LitList l)
  end.

(** [str(attempts)], read back by [literal_eval] as the same list. *)
Definition str (l : list attempt) : failedAttempts := AttemptList l.

(** ** Configuration ([settings.general]) *)

Record settings_general := {
  adaptive_searching : bool;
  adaptive_searching_delay : string;
  adaptive_searching_delta : string;
  minimum_score : string;
  minimum_score_movie : string
}.

(** ** The adaptive search gate *)

(** The [try] block shared by [is_search_active] and
    [updateFailedAttempts]: evaluate the column, raise [ValueError] when the
    value is not a list. *)
Definition parse_attempts (s : attempt_text) : result (list attempt) :=
  attempts ← literal_eval s;
  match attempts with
  | LitList l => Ok l
  | LitOther => Raise ValueError
  end.

(** [[x for x in attempts if x[0] == desired_language]] *)
Definition matching (desired_language : string) (attempts : list attempt)
  : list attempt :=
  filter (fun x => x.1 = desired_language) attempts.

(** [[x for x in attempts if x[0] != desired_language]] *)
Definition not_matching (desired_language : string) (attempts : list attempt)
  : list attempt :=
  filter (fun x => x.1 <> desired_language) attempts.

(** The two [if/elif/else] blocks on [adaptive_searching_delay] and
    [adaptive_searching_delta] (lines 1836-1853), which differ in the
    setting only.  [Ok None] is the [else] branch, where the gate logs that
    it cannot parse the setting and returns [True]. *)
Definition extended_search_window (setting : string) : result (option timedelta) :=
  if endswith setting "d" then
    n ← int (first1 setting); Ok (Some (timedelta_days n))
  else if endswith setting "w" then
    n ← int (first1 setting); Ok (Some (timedelta_weeks n))
  else Ok None.

Definition is_search_active `{tz : localtime} (cfg : settings_general) (now : datetime)
  (desired_language : string) (attempt_string : attempt_text) : result bool :=
  if adaptive_searching cfg then
    match parse_attempts attempt_string with
    | Raise ValueError => Ok true
    | Raise e => Raise e
    | Ok attempts =>
      if (length attempts =? 0)%nat then Ok true
      else
        let matching_attempts :=
          sorted Z.ltb snd (matching desired_language attempts) in
        match matching_attempts with
        | [] => Ok true
        | initial_search_attempt :: _ =>
          let latest_search_attempt :=
            last_of initial_search_attempt matching_attempts in
          match (i ← fromtimestamp initial_search_attempt.2;
                 l ← fromtimestamp latest_search_attempt.2;
                 Ok (i, l) : result (datetime * datetime)) with
          | Raise _ => Ok true
          | Ok (initial_search_timestamp, latest_search_timestamp) =>
            delay ← extended_search_window (adaptive_searching_delay cfg);
            match delay with
            | None => Ok true
            | Some extended_search_delay =>
              delta ← extended_search_window (adaptive_searching_delta cfg);
              match delta with
              | None => Ok true
              | Some extended_search_delta =>
                frequent_until ←
                  datetime_add initial_search_timestamp extended_search_delay;
                if now <? frequent_until then Ok true
                else
                  sparse_until ←
                    datetime_add latest_search_timestamp extended_search_delta;
                  if sparse_until <=? now then Ok true else Ok false
              end
            end
          end
        end
    end
  else Ok true.

(** [updateFailedAttempts], on the values of the column.  (On a text that is
    no Python expression [literal_eval] raises [SyntaxError], which the
    [except ValueError] lets through.) *)
Definition updateFailedAttempts `{tz : localtime} (now : datetime) (desired_language : string)
  (attempt_string : failedAttempts) : failedAttempts :=
  let attempts :=
    match parse_attempts attempt_string with
    | Ok l => l
    | Raise _ => []
    end in
  let matching_attempts := sorted Z.ltb snd (matching desired_language attempts) in
  let filtered_attempts := sorted Z.ltb snd (not_matching desired_language attempts) in
  let filtered_attempts :=
    match matching_attempts with
    | [] => filtered_attempts
    | initial :: _ => filtered_attempts ++ [initial]
    end in
  let filtered_attempts := filtered_attempts ++ [(desired_language, timestamp now)] in
  let updated_attempts := sorted String.ltb fst filtered_attempts in
  str updated_attempts.

(** ** Languages *)

(** A language variant ([subzero.language.Language], a class declared
    outside this module): the language itself, and the two modifiers. *)
Record Language := {
  basename : string;
  forced : bool;
  hi : bool
}.

#[global] Instance Language_eq_dec : EqDecision Language.
Proof. solve_decision. Defined.

#[global] Instance Language_countable : Countable Language.
Proof.
  apply (inj_countable'
           (λ l, (basename l, forced l, hi l))
           (λ t, {| basename := t.1.1; forced := t.1.2; hi := t.2 |})).
  by intros [].
Defined.

(** Modelled from the spec: [Language.rebuild(instance, forced=..,
    hi=..)], of [subzero/language.py], which is not under src/.  The spec
    has a variant "rebuilt by copy-with-override when toggling forced/hi":
    a copy of the instance with the given keywords replaced. *)
Definition rebuild (instance : Language) (forced' hi' : option bool) : Language :=
  {| basename := basename instance;
     forced := default (forced instance) forced';
     hi := default (hi instance) hi' |}.

(** What the module imports from the language and score tables. *)
Record score_handler := {
  max_score : Z;
  (** [handler.get_scores(min_percent)]: the floor, the maximum and the
      names of the match dimensions. *)
  get_scores : Z → Z * Z * list string
}.

Record tables := {
  (** [get_languages.alpha3_from_alpha2] *)
  alpha3_from_alpha2 : string → string;
  (** [get_languages.alpha2_from_alpha3] *)
  alpha2_from_alpha3 : string → string;
  (** [CustomLanguage.from_value(alpha3, "alpha3")], as the name of the
      language its [subzero_language()] stands for *)
  custom_language : string → option string;
  (** [CustomLanguage.from_value(language, "language")], as its [alpha3] *)
  custom_alpha3 : Language → option string;
  series_score : score_handler;
  movie_score : score_handler
}.

(** [_get_lang_obj(alpha3)].  The custom language is looked up first; the
    [Language] made either way has neither modifier, the spec giving the
    overrides a say on the language only. *)
Definition _get_lang_obj (t : tables) (alpha3 : string) : Language :=
  match custom_language t alpha3 with
  | None => {| basename := alpha3; forced := false; hi := false |}
  | Some sub => {| basename := sub; forced := false; hi := false |}
  end.

(** ** Scores *)

(** [int(x)] of the float [a / b], for positive [b]. *)
Definition int_of_quotient (a b : Z) : Z := Z.quot a b.

(** [_get_scores(media_type, min_movie, min_ep)].  The two settings are
    texts; an empty text is false and gives way to the default. *)
Definition _get_scores (t : tables) (media_type : string) (min_movie min_ep : string)
  : result (Z * Z * list string) :=
  let series := bool_decide ("series" = media_type) in
  let handler := if series then series_score t else movie_score t in
  min_score_ ←
    (if series
     then (if bool_decide (min_ep = "") then Ok (int_of_quotient (240 * 100) (max_score handler))
           else int min_ep)
     else (if bool_decide (min_movie = "") then Ok (int_of_quotient (60 * 100) (max_score handler))
           else int min_movie));
  Ok (get_scores handler min_score_).

(** ** Providers, candidates and what a call leaves behind *)

(** A candidate subtitle as a provider returns it, with what
    [compute_score] and [get_matches] say of it for the video at hand. *)
Record subtitle := {
  language : Language;
  provider_name : string;
  hash_verifiable : bool;
  (** [s.get_matches(video)]; [None] when it raises [AttributeError] *)
  get_matches : option (list string);
  (** [compute_score(matches, s, video, ...)] *)
  score : Z;
  score_without_hash : Z
}.

#[global] Instance subtitle_eq_dec : EqDecision subtitle.
Proof. solve_decision. Defined.

(** The surroundings of one call: the providers that are not throttled, the
    outcome of [get_video], what the providers offer for the video, and
    whether listing or saving raises. *)
Record world := {
  providers : list string;
  get_video : bool;                      (* false: [get_video] returned None *)
  offered : list subtitle;
  listing_raises : bool;
  saving_raises : bool
}.

Inductive event :=
| Log (msg : string)
| DownloadBest (providers : list string) (language_set : gset Language)
    (min_score : Z) (hi : string)
| ListAll (providers : list string) (language_set : gset Language)
| HistoryLog (action : Z) (language_code : string) (score : Z).

Definition throttled_msg : string := "BAZARR All providers are throttled".

(** Modelled from the spec: the acceptance test of
    [download_best_subtitles], which is not under src/; a candidate "meets
    [min_score]" when its score is at least [min_score]. *)
Definition meets_min_score (min_score : Z) (s : subtitle) : Prop :=
  min_score ≤ score s.

#[global] Instance meets_min_score_dec m s : Decision (meets_min_score m s).
Proof. unfold meets_min_score. apply _. Defined.

(** Modelled from the spec: the "best subtitle" of
    [download_best_subtitles], the candidate of highest score. *)
Definition best_of (l : list subtitle) : option subtitle :=
  foldr (λ s acc, match acc with
                  | Some b => if score b <? score s then Some s else Some b
                  | None => Some s
                  end) None l.

(** Modelled from the spec: [download_best_subtitles] of
    [subliminal_patch.core_persistent], which is not under src/.  The spec
    has it "query all providers for the best subtitle per language meeting
    [min_score]": of the candidates in a requested language whose score is
    at least [min_score], the best one of each language. *)
Definition download_best_subtitles (offered : list subtitle)
  (language_set : gset Language) (min_score : Z) : list subtitle :=
  omap (λ lang, best_of (filter (λ s, language s = lang ∧ meets_min_score min_score s)
                           offered))
       (elements language_set).

(** The tuple a search yields for a saved subtitle; of the message only
    the verb is kept.  [result_language_code2] is [result[2]], and
    [result[5]] and [result[8]] are the two modifiers of
    [result_language]. *)
Record download_result := {
  action : string;
  result_language_code2 : string;
  result_language : Language;
  result_provider : string;
  result_score : Z
}.

(** ** [generate_subtitles] *)

(** An element of [languages]: [(l, hi_item, forced_item)]. *)
Abbreviation language_item := (string * string * string)%type (only parsing).

(** The variables the [for l in languages] loop assigns. *)
Record loop_state := {
  language_set : gset Language;
  loop_hi : string;
  only_foreign : bool
}.

Definition generate_loop_body (t : tables) (st : loop_state) (l : language_item)
  : loop_state :=
  let '(l, hi_item, forced_item) := l in
  let hi := if bool_decide (hi_item = "True") then "force HI" else "force non-HI" in
  let only_foreign := bool_decide (forced_item = "True") in
  let l := alpha3_from_alpha2 t l in
  let lang_obj := _get_lang_obj t l in
  let lang_obj :=
    if bool_decide (forced_item = "True") then rebuild lang_obj (Some true) None
    else lang_obj in
  let lang_obj :=
    if bool_decide (hi = "force HI") then rebuild lang_obj None (Some true)
    else lang_obj in
  {| language_set := {[ lang_obj ]} ∪ language_set st;
     loop_hi := hi;
     only_foreign := only_foreign |}.

Definition generate_loop (t : tables) (languages : list language_item) : loop_state :=
  fold_left (generate_loop_body t) languages
    {| language_set := ∅; loop_hi := "force non-HI"; only_foreign := false |}.

(** Lines 236-237: [if forced_minimum_score: min_score =
    int(forced_minimum_score) + 1].  [None] and [0] are false. *)
Definition forced_min_score (forced_minimum_score : option Z) (min_score : Z) : Z :=
  match forced_minimum_score with
  | Some n => if bool_decide (n ≠ 0) then n + 1 else min_score
  | None => min_score
  end.

(** [_get_download_code3(subtitle)]; the [alpha3] of a [Language] is the
    name it was made with. *)
Definition _get_download_code3 (t : tables) (s : subtitle) : string :=
  match custom_alpha3 t (language s) with
  | None => basename (language s)
  | Some alpha3 => alpha3
  end.

Definition result_of (t : tables) (is_upgrade : bool) (s : subtitle) : download_result :=
  {| action := if is_upgrade then "upgraded" else "downloaded";
     result_language_code2 := alpha2_from_alpha3 t (_get_download_code3 t s);
     result_language := language s;
     result_provider := provider_name s;
     result_score := score s |}.

(** [generate_subtitles]: the results it yields (none when it returns
    [None]) and the events it leaves. *)
Definition generate_subtitles (t : tables) (w : world) (cfg : settings_general)
  (languages : list language_item) (media_type : string)
  (forced_minimum_score : option Z) (is_upgrade : bool)
  : result (list download_result * list event) :=
  if bool_decide (languages = []) then Ok ([], [])
  else
    let st := generate_loop t languages in
    if get_video w then
      '(min_score, max_score, scores) ←
        _get_scores t media_type (minimum_score_movie cfg) (minimum_score cfg);
      if bool_decide (providers w ≠ []) then
        let min_score := forced_min_score forced_minimum_score min_score in
        let downloaded_subtitles :=
          download_best_subtitles (offered w) (language_set st) min_score in
        let trace :=
          [DownloadBest (providers w) (language_set st) min_score (loop_hi st)] in
        if bool_decide (downloaded_subtitles = []) then Ok ([], trace)
        else if saving_raises w then Ok ([], trace)
        else Ok (result_of t is_upgrade <$> downloaded_subtitles, trace)
      else Ok ([], [Log throttled_msg])
    else Ok ([], []).

(** ** The wanted and the upgrade flows *)

(** [language.split(":")[0]] *)
Fixpoint split_colon_0 (s : string) : string :=
  match s with
  | EmptyString => EmptyString
  | String c r => if Ascii.eqb c ":" then EmptyString else String c (split_colon_0 r)
  end.

(** The tuple [_wanted_movie] and [_wanted_episode] build from a token of
    [missing_subtitles]. *)
Definition language_tuple (language : string) : language_item :=
  let hi_ := if endswith language ":hi" then "True" else "False" in
  let forced_ := if endswith language ":forced" then "True" else "False" in
  (split_colon_0 language, hi_, forced_).

(** The [for language in missing_subtitles] loop of [_wanted_movie]: the
    languages to search and the last value written to the column
    [failedAttempts].  The gate reads the row as it was fetched
    ([movie['failedAttempts']]) at every turn. *)
Fixpoint _wanted_languages `{tz : localtime} (cfg : settings_general) (now : datetime)
  (missing_subtitles confirmed_missing_subs : list string)
  (fetched column : failedAttempts) : result (list language_item * failedAttempts) :=
  match missing_subtitles with
  | [] => Ok ([], column)
  | language :: rest =>
    if bool_decide (language ∈ confirmed_missing_subs) then
      active ← is_search_active cfg now language fetched;
      if active : bool then
        '(languages, column) ←
          _wanted_languages cfg now rest confirmed_missing_subs fetched
            (updateFailedAttempts now language fetched);
        Ok (language_tuple language :: languages, column)
      else _wanted_languages cfg now rest confirmed_missing_subs fetched column
    else _wanted_languages cfg now rest confirmed_missing_subs fetched column
  end.

(** A row of the download history that [upgrade_subtitles] selected. *)
Record history_row := {
  row_language : string;     (* ["xx"], ["xx:forced"] or ["xx:hi"] *)
  row_score : Z              (* [int(episode['score'])] *)
}.

(** The code written to the history for a result: [result[2]] with the
    modifier of [result[8]] (hearing-impaired) or [result[5]] (forced), as
    every flow builds it before [history_log]. *)
Definition history_language_code (code2 : string) (forced hi : bool) : string :=
  if hi then code2 +:+ ":hi"
  else if forced then code2 +:+ ":forced"
  else code2.

(** The language code of a result of [generate_subtitles]. *)
Definition language_code (r : download_result) : string :=
  history_language_code (result_language_code2 r)
    (forced (result_language r)) (hi (result_language r)).

(** [_wanted_movie]: the last value written to the column [failedAttempts]
    and the events of the search and of the history. *)
Definition _wanted_movie `{tz : localtime} (t : tables) (w : world) (cfg : settings_general)
  (now : datetime) (missing_subtitles confirmed_missing_subs : list string)
  (fetched : failedAttempts) : result (failedAttempts * list event) :=
  '(languages, column) ←
    _wanted_languages cfg now missing_subtitles confirmed_missing_subs fetched fetched;
  '(results, trace) ← generate_subtitles t w cfg languages "movie" None false;
  Ok (column,
      trace ++ ((λ r, HistoryLog 1 (language_code r) (result_score r)) <$> results)).

(** Lines 1575-1586: the tuple [(language, is_hi, is_forced)] read from
    the language of the history row. *)
Definition upgrade_language_tuple (language : string) : language_item :=
  if endswith language "forced" then (split_colon_0 language, "False", "True")
  else if endswith language "hi" then (split_colon_0 language, "True", "False")
  else (split_colon_0 language, "False", "False").

(** One turn of the loops of [upgrade_subtitles] (lines 1560-1621 for an
    episode, 1626-1683 for a movie). *)
Definition upgrade_one (t : tables) (w : world) (cfg : settings_general)
  (media_type : string) (episode : history_row) : result (list event) :=
  if bool_decide (providers w = []) then Ok [Log throttled_msg]
  else
    '(result, trace) ←
      generate_subtitles t w cfg [upgrade_language_tuple (row_language episode)]
        media_type (Some (row_score episode)) true;
    match result with
    | [] => Ok trace
    | result :: _ =>
        Ok (trace ++ [HistoryLog 3 (language_code result) (result_score result)])
    end.

(** ** [manual_search] *)

(** An item of the languages profile. *)
Record profile_item := {
  item_language : string;
  item_forced : string;
  item_hi : string;
  item_audio_exclude : string
}.

(** The first loop: one variant per item of the profile. *)
Definition profile_lang_obj (t : tables) (item : profile_item) : Language :=
  let lang := alpha3_from_alpha2 t (item_language item) in
  let lang_obj := _get_lang_obj t lang in
  let lang_obj :=
    if bool_decide (item_forced item = "True") then rebuild lang_obj (Some true) None
    else lang_obj in
  if bool_decide (item_hi item = "True") then rebuild lang_obj None (Some true)
  else lang_obj.

Definition initial_language_set (t : tables) (language_items : list profile_item)
  : gset Language :=
  fold_left (λ acc item, {[ profile_lang_obj t item ]} ∪ acc) language_items ∅.

(** The second loop (lines 412-421), over a copy of the set. *)
Definition expand_body (acc : gset Language) (language : Language) : gset Language :=
  if negb (forced language) && negb (hi language)
  then {[ rebuild language None (Some true) ]} ∪ acc
  else if negb (forced language) && hi language
  then {[ rebuild language None (Some false) ]} ∪ acc
  else acc.

Definition manual_language_set (initial_language_set : gset Language) : gset Language :=
  fold_left expand_body (elements initial_language_set) initial_language_set.

(** Lines 469-477: whether the candidate is skipped as a wrong episode. *)
Definition skip_wrong_episode (media_type : string) (s : subtitle)
  (matches : list string) : bool :=
  if bool_decide (media_type = "series") then
    let can_verify_series :=
      if negb (hash_verifiable s) && bool_decide ("hash" ∈ matches) then false
      else true in
    can_verify_series &&
    negb (bool_decide (["series"; "season"; "episode"] ⊆ matches))
  else false.

(** What the loop over the candidates does with one of them before it
    computes a score. *)
Inductive candidate_fate :=
| NoMatches          (* [get_matches] raised [AttributeError]: [continue] *)
| WrongEpisode       (* skipped by the rule of lines 469-477 *)
| Scored.            (* goes on to [compute_score] *)

#[global] Instance candidate_fate_eq_dec : EqDecision candidate_fate.
Proof. solve_decision. Defined.

Definition candidate_fate_of (media_type : string) (s : subtitle) : candidate_fate :=
  match get_matches s with
  | None => NoMatches
  | Some matches =>
      if skip_wrong_episode media_type s matches then WrongEpisode else Scored
  end.

(** The order of the result: [(orig_score, score_without_hash)], largest
    first. *)
Definition score_key (s : subtitle) : Z * Z := (score s, score_without_hash s).

Definition score_key_gtb (a b : Z * Z) : bool :=
  (b.1 <? a.1) || ((b.1 =? a.1) && (b.2 <? a.2)).

(** [manual_search]: [None] when it returns [None], and the candidates it
    returns otherwise, with the events it leaves. *)
Definition manual_search (t : tables) (w : world) (cfg : settings_general)
  (language_items : list profile_item) (providers : list string)
  (media_type : string) : result (option (list subtitle) * list event) :=
  let initial_language_set := initial_language_set t language_items in
  let language_set := manual_language_set initial_language_set in
  if bool_decide (providers ≠ []) then
    if get_video w then
      '(min_score, max_score, scores) ←
        _get_scores t media_type (minimum_score_movie cfg) (minimum_score cfg);
      let subscene_language_set := filter (λ l, forced l = true) language_set in
      let trace :=
        ListAll providers language_set ::
        (if bool_decide ("subscene" ∈ providers) &&
            negb (bool_decide (subscene_language_set = ∅))
         then [ListAll ["subscene"] subscene_language_set] else []) in
      if listing_raises w then Ok (Some [], trace)
      else
        let subtitles_list :=
          filter (λ s, candidate_fate_of media_type s = Scored) (offered w) in
        Ok (Some (sorted score_key_gtb score_key subtitles_list), trace)
    else Ok (Some [], [])
  else Ok (None, [Log throttled_msg]).

(** ** Vocabulary of the specification for the search flows *)

(** The series rule as the specification words it: the candidate cannot be
    hash-verified and its matches do not cover series, season and
    episode. *)
Definition spec_discarded (s : subtitle) (matches : list string) : bool :=
  negb (hash_verifiable s) &&
  negb (bool_decide (["series"; "season"; "episode"] ⊆ matches)).

(** An event that queries the providers. *)
Definition is_query (e : event) : bool :=
  match e with
  | DownloadBest _ _ _ _ | ListAll _ _ => true
  | _ => false
  end.

(** ** Vocabulary of the specification for the gate *)

(** The entries of a history; a column that is not a list has none. *)
Definition entries (h : failedAttempts) : list attempt :=
  match h with
  | AttemptList l => l
  | _ => []
  end.

(** [e] is an earliest entry of [l] for the language. *)
Definition earliest (desired_language : string) (l : list attempt) (e : attempt) : Prop :=
  e ∈ matching desired_language l ∧
  ∀ x, x ∈ matching desired_language l → e.2 ≤ x.2.

(** [e] is a most recent entry of [l] for the language. *)
Definition most_recent (desired_language : string) (l : list attempt) (e : attempt) : Prop :=
  e ∈ matching desired_language l ∧
  ∀ x, x ∈ matching desired_language l → x.2 ≤ e.2.

(** The timestamp cannot be parsed. *)
Definition unparsable `{tz : localtime} (t : Z) : Prop := ∃ e, fromtimestamp t = Raise e.

(** The variant a tuple [(l, hi_item, forced_item)] declares. *)
Definition declared_variant (t : tables) (l : language_item) : Language :=
  {| basename := basename (_get_lang_obj t (alpha3_from_alpha2 t l.1.1));
     forced := bool_decide (l.2 = "True");
     hi := bool_decide (l.1.2 = "True") |}.

(** The hearing-impaired counterpart of a variant. *)
Definition hi_toggled (l : Language) : Language :=
  {| basename := basename l; forced := forced l; hi := negb (hi l) |}.

(** ** Sample surroundings, for the examples *)

Definition sample_handler (max : Z) : score_handler :=
  {| max_score := max;
     get_scores := λ min_percent,
       (max * min_percent / 100, max, ["hash"; "series"; "season"; "episode"]) |}.

Definition sample_tables : tables :=
  {| alpha3_from_alpha2 := λ l,
       if bool_decide (l = "en") then "eng"
       else if bool_decide (l = "fr") then "fra" else l;
     alpha2_from_alpha3 := λ l,
       if bool_decide (l = "eng") then "en"
       else if bool_decide (l = "fra") then "fr" else l;
     custom_language := λ _, None;
     custom_alpha3 := λ _, None;
     series_score := sample_handler 360;
     movie_score := sample_handler 120 |}.

Definition sample_settings : settings_general :=
  {| adaptive_searching := true;
     adaptive_searching_delay := "3w";
     adaptive_searching_delta := "1w";
     minimum_score := "90";
     minimum_score_movie := "70" |}.

Definition sample_candidate (lang : Language) (score : Z) : subtitle :=
  {| language := lang; provider_name := "opensubtitles"; hash_verifiable := true;
     get_matches := Some ["series"; "season"; "episode"];
     score := score; score_without_hash := score |}.

Definition sample_world (providers : list string) (get_video : bool)
  (offered : list subtitle) : world :=
  {| providers := providers; get_video := get_video; offered := offered;
     listing_raises := false; saving_raises := false |}.

Definition eng : Language := {| basename := "eng"; forced := false; hi := false |}.

(** A platform on UTC whose [localtime] reads the timestamps of the years
    1970 to 2037, the range the documentation of [fromtimestamp] gives as
    common. *)
Definition utc : localtime :=
  {| local_datetime := λ t,
       if (0 <=? t) && (t <? 2145916800 * 1000000) then Some t else None;
     timestamp := λ d, d |}.



(** * Further functions of the module *)

#[global] Instance exn_eq_dec : EqDecision exn.
Proof. solve_decision. Defined.

#[global] Instance result_eq_dec `{EqDecision A} : EqDecision (result A).
Proof. solve_decision. Defined.

(** ** The history across calls *)

(** [updateFailedAttempts] called once for each instant of [nows], in
    order, for the same language. *)
Definition record_attempts `{tz : localtime} (nows : list Z) (desired_language : string)
  (h : failedAttempts) : failedAttempts :=
  fold_left (λ h now, updateFailedAttempts now desired_language h) nows h.

(** The tokens of [missing_subtitles] that the loop of [_wanted_movie]
    lets through: still missing, and due. *)
Definition searched_tokens `{tz : localtime} (cfg : settings_general) (now : datetime)
  (missing_subtitles confirmed_missing_subs : list string)
  (fetched : failedAttempts) : list string :=
  filter (λ language, language ∈ confirmed_missing_subs ∧
                      is_search_active cfg now language fetched = Ok true)
         missing_subtitles.

(** ** Language tokens *)

(** Whether [":" in s]. *)
Fixpoint has_colon (s : string) : bool :=
  match s with
  | EmptyString => false
  | String c r => Ascii.eqb c ":" || has_colon r
  end.

(** [s[-1]], when there is one. *)
Fixpoint last_char (s : string) : option ascii :=
  match s with
  | EmptyString => None
  | String c EmptyString => Some c
  | String _ r => last_char r
  end.

(** ** The order of the candidates of a manual search *)

(** [a] comes no later than [b] in the order of [manual_search]: its pair
    [(orig_score, score_without_hash)] is not smaller. *)
Definition score_key_ge (a b : subtitle) : Prop :=
  score b < score a ∨ (score b = score a ∧ score_without_hash b ≤ score_without_hash a).

(** ** The batch flows *)

(** What a batch leaves behind: the progress channel, the informational
    log, the calls of the per-item flow of the wanted search, and the events
    of the searches themselves. *)
Inductive batch_event :=
| ShowProgress (id : string) (value count : nat)
| HideProgress (id : string)
| Info (msg : string)
| Flow (e : event).

(** The languages the loops of [series_download_subtitles] and
    [episode_download_subtitles] collect (lines 854-867): the tokens of
    [missing_subtitles] that are still in the column when it is read
    again. *)
Definition confirmed_languages (missing_subtitles confirmed_missing_subs : list string)
  : list language_item :=
  language_tuple <$> filter (λ language, language ∈ confirmed_missing_subs)
                            missing_subtitles.

(** The [history_log] calls for the results of a search. *)
Definition history_events (action : Z) (results : list download_result) : list event :=
  (λ r, HistoryLog action (language_code r) (result_score r)) <$> results.

(** An episode of a series as [series_download_subtitles] meets it: its row,
    the column [missing_subtitles] as it is read again, and the
    surroundings of the search. *)
Record episode_item := {
  episode_missing_subtitles : list string;
  episode_confirmed_missing_subs : list string;
  episode_world : world
}.

(** The [for i, episode in enumerate(episodes_details)] loop of
    [series_download_subtitles]; [get_providers i] is what
    [get_providers()] returns at turn [i]. *)
Fixpoint series_download_loop (t : tables) (cfg : settings_general) (id : string)
  (count i : nat) (episodes_details : list episode_item)
  (get_providers : nat → list string) : result (list batch_event) :=
  match episodes_details with
  | [] => Ok []
  | episode :: rest =>
    if bool_decide (get_providers i ≠ []) then
      let languages :=
        confirmed_languages (episode_missing_subtitles episode)
          (episode_confirmed_missing_subs episode) in
      if bool_decide (languages = []) then
        tr ← series_download_loop t cfg id count (S i) rest get_providers;
        Ok (ShowProgress id i count :: tr)
      else
        '(results, trace) ←
          generate_subtitles t (episode_world episode) cfg languages "series" None false;
        tr ← series_download_loop t cfg id count (S i) rest get_providers;
        Ok (ShowProgress id i count ::
            (Flow <$> trace) ++ (Flow <$> history_events 1 results) ++ tr)
    else Ok [Info throttled_msg]
  end.

(** [series_download_subtitles(no)] *)
Definition series_download_subtitles (t : tables) (cfg : settings_general) (no : Z)
  (episodes_details : list episode_item) (get_providers : nat → list string)
  : result (list batch_event) :=
  if bool_decide (episodes_details = []) then Ok []
  else
    let id := "series_search_progress_" +:+ pretty no in
    tr ← series_download_loop t cfg id (length episodes_details) 0 episodes_details
           get_providers;
    Ok (tr ++ [HideProgress id]).

(** The loop of [wanted_search_missing_subtitles_series] and of
    [wanted_search_missing_subtitles_movies], which differ in the progress
    id and in the flow they call; [wanted_download item] is what
    [wanted_download_subtitles(item)] leaves, or the exception it lets
    through.  The second component says whether the loop ran to its end
    ([False]: the function returned from inside the loop). *)
Fixpoint wanted_search_loop (id : string) (count i : nat) (items : list Z)
  (get_providers : nat → list string) (wanted_download : Z → result (list event))
  : result (list batch_event * bool) :=
  match items with
  | [] => Ok ([], true)
  | item :: rest =>
    if bool_decide (get_providers i ≠ []) then
      evs ← wanted_download item;
      '(tr, finished) ← wanted_search_loop id count (S i) rest get_providers wanted_download;
      Ok (ShowProgress id i count :: (Flow <$> evs) ++ tr, finished)
    else Ok ([ShowProgress id i count; Info throttled_msg], false)
  end.

Definition wanted_finished_msg : string :=
  "BAZARR Finished searching for missing Series Subtitles. Check History for more information.".

(** [wanted_search_missing_subtitles_series()] *)
Definition wanted_search_missing_subtitles_series (episodes : list Z)
  (get_providers : nat → list string) (wanted_download : Z → result (list event))
  : result (list batch_event) :=
  '(tr, finished) ←
    wanted_search_loop "wanted_episodes_progress" (length episodes) 0 episodes
      get_providers wanted_download;
  if finished : bool
  then Ok (tr ++ [HideProgress "wanted_episodes_progress"; Info wanted_finished_msg])
  else Ok tr.

(** The variables of the loop of [movies_download_subtitles] (lines
    1027-1051). *)
Record movie_loop_state := {
  movie_languages : list language_item;
  movie_providers_list : option (list string);
  movie_shown : list batch_event
}.

Definition movies_loop_body (id : string) (count : nat)
  (confirmed_missing_subs : list string) (get_providers : nat → list string)
  (st : movie_loop_state) (i : nat) (language : string) : movie_loop_state :=
  let providers_list := get_providers i in
  let languages := movie_languages st ++ [language_tuple language] in
  let shown :=
    if bool_decide (providers_list ≠ []) &&
       bool_decide (language ∈ confirmed_missing_subs)
    then movie_shown st ++ [ShowProgress id i count]
    else movie_shown st in
  {| movie_languages := languages;
     movie_providers_list := Some providers_list;
     movie_shown := shown |}.

Fixpoint movies_loop (id : string) (count : nat) (confirmed_missing_subs : list string)
  (get_providers : nat → list string) (st : movie_loop_state) (i : nat)
  (missing_subtitles : list string) : movie_loop_state :=
  match missing_subtitles with
  | [] => st
  | language :: rest =>
      movies_loop id count confirmed_missing_subs get_providers
        (movies_loop_body id count confirmed_missing_subs get_providers st i language)
        (S i) rest
  end.

(** [movies_download_subtitles(no)], for a movie that is in the database. *)
Definition movies_download_subtitles (t : tables) (w : world) (cfg : settings_general)
  (no : Z) (missing_subtitles confirmed_missing_subs : list string)
  (get_providers : nat → list string) : result (list batch_event) :=
  let id := "movie_search_progress_" +:+ pretty no in
  let count_movie := length missing_subtitles in
  let st :=
    movies_loop id count_movie confirmed_missing_subs get_providers
      {| movie_languages := []; movie_providers_list := None; movie_shown := [] |}
      0 missing_subtitles in
  match movie_providers_list st with
  | Some (_ :: _) =>
      '(results, trace) ←
        generate_subtitles t w cfg (movie_languages st) "movie" None false;
      Ok (movie_shown st ++ (Flow <$> trace) ++ (Flow <$> history_events 1 results)
          ++ [HideProgress id])
  | _ => Ok (movie_shown st ++ [Info throttled_msg; HideProgress id])
  end.

(** An event of the progress channel that shows a bar. *)
Definition is_show (e : batch_event) : bool :=
  match e with
  | ShowProgress _ _ _ => true
  | _ => false
  end.

(** ** The rows [upgrade_subtitles] selects *)

(** A row of the history as the query of [upgrade_subtitles] returns it;
    [upgradable_score] is [int(row['score'])], [None] when it raises
    [ValueError]. *)
Record upgradable := {
  upgradable_timestamp : Z;
  upgradable_score : option Z;
  upgradable_action : Z;
  upgradable_subtitles_exist : bool    (* [os.path.exists] of the subtitles *)
}.

(** The test of lines 1501-1509 (series, [perfect = 360]) and 1542-1550
    (movies, [perfect = 120]) on one row. *)
Definition is_not_perfect (perfect minimum_timestamp : Z) (upgrade_manual : bool)
  (r : upgradable) : Prop :=
  minimum_timestamp < upgradable_timestamp r ∧
  match upgradable_score r with
  | Some s => s < perfect ∨ (upgrade_manual = true ∧ upgradable_action r ∈ [2; 4; 6])
  | None => False
  end.

#[global] Instance is_not_perfect_dec perfect minimum_timestamp upgrade_manual r :
  Decision (is_not_perfect perfect minimum_timestamp upgrade_manual r).
Proof. unfold is_not_perfect. destruct (upgradable_score r); apply _. Defined.

Definition upgradable_not_perfect (perfect minimum_timestamp : Z) (upgrade_manual : bool)
  (rows : list upgradable) : list upgradable :=
  filter (is_not_perfect perfect minimum_timestamp upgrade_manual) rows.

(** The test of lines 1513 ([near_perfect = 357]) and 1554 ([117]). *)
Definition is_to_upgrade (near_perfect : Z) (r : upgradable) : Prop :=
  upgradable_subtitles_exist r = true ∧
  match upgradable_score r with
  | Some s => s < near_perfect
  | None => False
  end.

#[global] Instance is_to_upgrade_dec near_perfect r : Decision (is_to_upgrade near_perfect r).
Proof. unfold is_to_upgrade. destruct (upgradable_score r); apply _. Defined.

Definition to_upgrade (near_perfect : Z) (not_perfect : list upgradable)
  : list upgradable :=
  filter (is_to_upgrade near_perfect) not_perfect.

(** ** The provider pools *)

(** The pool class and what builds and refreshes a pool.  Both read the
    current provider settings; [pool_update p media_type profile_id] is
    [p.update(get_providers(), get_providers_auth(),
    get_blacklist(media_type), get_ban_list(profile_id))]: the pool as the
    call leaves it and whether anything changed.  [None] is Python's
    [None]. *)
Record pool_class (pool : Type) := {
  init_pool : string → option Z → option pool;
  pool_update : pool → string → option Z → pool * bool
}.
Arguments init_pool {pool} _ _ _.
Arguments pool_update {pool} _ _ _ _.

(** [f'{media_type}_{profile_id or ""}'] *)
Definition pool_key (media_type : string) (profile_id : option Z) : string :=
  media_type +:+ "_" +:+
  match profile_id with
  | Some n => if bool_decide (n ≠ 0) then pretty n else ""
  | None => ""
  end.

Inductive pool_event :=
| InitPool (key : string)
| UpdatePool (key : string).

#[global] Instance pool_event_eq_dec : EqDecision pool_event.
Proof. solve_decision. Defined.

(** [_update_pool(media_type, profile_id)] on the module's [_pools]: the
    dictionary as the call leaves it, the value returned, and the pools
    built and refreshed on the way. *)
Definition _update_pool {pool} (c : pool_class pool) (_pools : gmap string (option pool))
  (media_type : string) (profile_id : option Z)
  : gmap string (option pool) * bool * list pool_event :=
  let key := pool_key media_type profile_id in
  let '(_pools, built) :=
    match _pools !! key with
    | None => (<[key := init_pool c media_type profile_id]> _pools, [InitPool key])
    | Some _ => (_pools, [])
    end in
  match _pools !! key with
  | Some (Some p) =>
      let '(p, changed) := pool_update c p media_type profile_id in
      (<[key := Some p]> _pools, changed, built ++ [UpdatePool key])
  | _ => (_pools, false, built)
  end.

(** [_get_pool(media_type, profile_id)]: the dictionary, the pool returned
    and the events; the outer [None] is a [KeyError] that is let through. *)
Definition _get_pool {pool} (c : pool_class pool) (_pools : gmap string (option pool))
  (media_type : string) (profile_id : option Z)
  : option (gmap string (option pool) * option pool * list pool_event) :=
  let key := pool_key media_type profile_id in
  match _pools !! key with
  | Some p => Some (_pools, p, [])
  | None =>
      let '(_pools, _, events) := _update_pool c _pools media_type profile_id in
      p ← _pools !! key; Some (_pools, p, events)
  end.

(** A call that reaches the pools: [_get_pool], or a function under the
    decorator [update_pools], which runs [_update_pool] first. *)
Inductive pool_call :=
| GetPool (media_type : string) (profile_id : option Z)
| UpdatePools (media_type : string) (profile_id : option Z).

Definition run_pool_call {pool} (c : pool_class pool)
  (st : gmap string (option pool) * list pool_event) (call : pool_call)
  : gmap string (option pool) * list pool_event :=
  match call with
  | GetPool media_type profile_id =>
      match _get_pool c st.1 media_type profile_id with
      | Some (_pools, _, events) => (_pools, st.2 ++ events)
      | None => st
      end
  | UpdatePools media_type profile_id =>
      let '(_pools, _, events) := _update_pool c st.1 media_type profile_id in
      (_pools, st.2 ++ events)
  end.

Definition run_pool_calls {pool} (c : pool_class pool)
  (_pools : gmap string (option pool)) (calls : list pool_call)
  : gmap string (option pool) * list pool_event :=
  fold_left (run_pool_call c) calls (_pools, []).

(** How many times a pool was built for the key. *)
Definition count_init (key : string) (events : list pool_event) : nat :=
  length (filter (λ e, e = InitPool key) events).

(** ** [app.py]: the reverse-proxy wrapper *)

(** [ReverseProxied.__call__]: the [environ] the wrapped application is
    called with.  The values of [environ] are taken as texts. *)
Definition ReverseProxied_call (environ : gmap string string) : gmap string string :=
  match environ !! "HTTP_X_FORWARDED_PROTO" with
  | Some scheme =>
      if bool_decide (scheme ≠ "") then <["wsgi.url_scheme" := scheme]> environ
      else environ
  | None => environ
  end.

(** ** [CustomNotifyPlugin.instantiate_plugin] *)

(** The function a [@notify] decorator wraps: [__name__], [__module__] and
    the file [inspect.getfile] gives. *)
Record send_function := {
  fn_name : string;
  fn_module : string;
  fn_file : string
}.

(** A class of [common.NOTIFY_SCHEMA_MAP]: one of the library's own, or the
    wrapper class [instantiate_plugin] defines, by its class attributes. *)
Inductive plugin_class :=
| BuiltinPlugin (name : string)
| CustomNotifyPluginWrapper (service_name secure_protocol details : string)
    (send : send_function) (_base_args : string).

Record notify_entry := {
  entry_name : string;
  entry_fn_name : string;
  entry_url : string;
  entry_plugin : plugin_class
}.

Record module_entry := {
  module_path : string;
  module_notify : gmap string notify_entry
}.

(** What the method takes from [apprise.utils]: the groups [schema] and
    [base] of [URL_DETAILS_RE.match] ([None] when there is no match, an
    empty [base] when the group is empty or absent), [str.lower], and
    [parse_url] with its result taken as a text. *)
Record apprise_utils := {
  URL_DETAILS_RE_match : string → option (string * string);
  str_lower : string → string;
  parse_url : string → string → string
}.

(** [instantiate_plugin(url, send_func, name)], on the two module-level
    dictionaries: the dictionaries as the call leaves them and the value
    returned.  [url = None] stands for an argument that is not a [str],
    [name = None] for a name that is not a [str]. *)
Definition instantiate_plugin (u : apprise_utils)
  (NOTIFY_SCHEMA_MAP : gmap string plugin_class)
  (NOTIFY_CUSTOM_MODULE_MAP : gmap string module_entry)
  (url : option string) (send_func : send_function) (name : option string)
  : gmap string plugin_class * gmap string module_entry * option plugin_class :=
  match url with
  | None => (NOTIFY_SCHEMA_MAP, NOTIFY_CUSTOM_MODULE_MAP, None)
  | Some url =>
    match URL_DETAILS_RE_match u url with
    | None => (NOTIFY_SCHEMA_MAP, NOTIFY_CUSTOM_MODULE_MAP, None)
    | Some (schema, base) =>
      let plugin_name := str_lower u schema in
      let url := if bool_decide (base = "") then plugin_name +:+ "://" else url in
      let base_args := parse_url u url plugin_name in
      if bool_decide (is_Some (NOTIFY_SCHEMA_MAP !! plugin_name))
      then (NOTIFY_SCHEMA_MAP, NOTIFY_CUSTOM_MODULE_MAP, None)
      else
        let service_name :=
          match name with
          | Some n => if bool_decide (n ≠ "") then n else "Custom - " +:+ plugin_name
          | None => "Custom - " +:+ plugin_name
          end in
        let wrapper :=
          CustomNotifyPluginWrapper service_name plugin_name
            ("Source: " +:+ fn_file send_func) send_func base_args in
        let schema_map := <[plugin_name := wrapper]> NOTIFY_SCHEMA_MAP in
        let module_pyname := fn_module send_func in
        let module_map :=
          match NOTIFY_CUSTOM_MODULE_MAP !! module_pyname with
          | None => <[module_pyname := {| module_path := fn_file send_func;
                                          module_notify := ∅ |}]>
                      NOTIFY_CUSTOM_MODULE_MAP
          | Some _ => NOTIFY_CUSTOM_MODULE_MAP
          end in
        let module_map :=
          match module_map !! module_pyname with
          | Some m =>
              <[module_pyname :=
                  {| module_path := module_path m;
                     module_notify :=
                       <[plugin_name := {| entry_name := service_name;
                                           entry_fn_name := fn_name send_func;
                                           entry_url := url;
                                           entry_plugin := wrapper |}]>
                         (module_notify m) |}]> module_map
          | None => module_map
          end in
        (schema_map, module_map, schema_map !! plugin_name)
    end
  end.

(** ** The video descriptor *)

(** A value of an attribute of the video or of a field of a track. *)
Inductive attr :=
| ANone
| AStr (s : string)
| AInt (z : Z)
| AList (l : list string)
| ASet (s : gset string).

(** Python's truth value. *)
Definition truth (a : attr) : bool :=
  match a with
  | ANone => false
  | AStr s => bool_decide (s ≠ "")
  | AInt z => bool_decide (z ≠ 0)
  | AList l => bool_decide (l ≠ [])
  | ASet s => bool_decide (s ≠ ∅)
  end.

(** A column that holds a text or NULL: its truth value, its value as an
    attribute and [str] of it. *)
Definition column_truth (o : option string) : bool :=
  match o with
  | Some s => bool_decide (s ≠ "")
  | None => false
  end.

Definition column_attr (o : option string) : attr :=
  match o with
  | Some s => AStr s
  | None => ANone
  end.

Definition column_str (o : option string) : string :=
  match o with
  | Some s => s
  | None => "None"
  end.

(** The [Video] object, by its attributes; an attribute that was never
    assigned holds [None]. *)
Definition getattr (video : gmap string attr) (name : string) : attr :=
  default ANone (video !! name).

(** [if cond: video.name = value] *)
Definition assign_if (cond : bool) (name : string) (value : attr)
  (video : gmap string attr) : gmap string attr :=
  if cond then <[name := value]> video else video.

Inductive video_kind := Episode | Movie | Video.

(** What the two refiners take from outside: [guessit(text)[key]] ([None]:
    [KeyError]) and [re.sub(r'\s(\(\d\d\d\d\))', '', text)]. *)
Record refine_lib := {
  guessit : string → string → option attr;
  re_sub_year : string → string
}.

(** [convert_to_guessit(guessit_key, attr_from_db)] *)
Definition convert_to_guessit (lib : refine_lib) (guessit_key attr_from_db : string)
  : attr :=
  match guessit lib attr_from_db guessit_key with
  | Some v => v
  | None => AStr attr_from_db
  end.

(** The row [refine_from_db] reads for an episode and for a movie. *)
Record episode_data := {
  seriesTitle : string;
  data_season : Z;
  data_episode : Z;
  episodeTitle : option string;
  tvdbId : Z;
  alternateTitles : list string;
  episode_format : option string;
  episode_resolution : option string;
  episode_video_codec : option string;
  episode_audio_codec : option string;
  episode_imdbId : option string
}.

Record movie_data := {
  movie_title : string;
  alternativeTitles : list string;
  movie_format : option string;
  movie_resolution : option string;
  movie_video_codec : option string;
  movie_audio_codec : option string;
  movie_imdbId : option string
}.

(** [refine_from_db(path, video)]; [episode] and [movie] are the first row
    of the query, when it has one, with the list that [ast.literal_eval]
    reads from its column of alternative titles. *)
Definition refine_from_db (lib : refine_lib) (kind : video_kind)
  (episode : option episode_data) (movie : option movie_data)
  (video : gmap string attr) : gmap string attr :=
  match kind with
  | Episode =>
    match episode with
    | None => video
    | Some data =>
      let video := <["series" := AStr (re_sub_year lib (seriesTitle data))]> video in
      let video := <["season" := AInt (data_season data)]> video in
      let video := <["episode" := AInt (data_episode data)]> video in
      let video := <["title" := column_attr (episodeTitle data)]> video in
      let video := <["series_tvdb_id" := AInt (tvdbId data)]> video in
      let video := <["alternative_series" := AList (alternateTitles data)]> video in
      let video :=
        assign_if (column_truth (episode_imdbId data) &&
                   negb (truth (getattr video "series_imdb_id")))
          "series_imdb_id" (column_attr (episode_imdbId data)) video in
      let video :=
        assign_if (negb (truth (getattr video "source")))
          "source" (convert_to_guessit lib "source" (column_str (episode_format data)))
          video in
      let video :=
        assign_if (negb (truth (getattr video "resolution")))
          "resolution" (AStr (column_str (episode_resolution data))) video in
      let video :=
        assign_if (negb (truth (getattr video "video_codec")) &&
                   column_truth (episode_video_codec data))
          "video_codec"
          (convert_to_guessit lib "video_codec" (column_str (episode_video_codec data)))
          video in
      assign_if (negb (truth (getattr video "audio_codec")) &&
                 column_truth (episode_audio_codec data))
        "audio_codec"
        (convert_to_guessit lib "audio_codec" (column_str (episode_audio_codec data)))
        video
    end
  | Movie =>
    match movie with
    | None => video
    | Some data =>
      let video := <["title" := AStr (re_sub_year lib (movie_title data))]> video in
      let video :=
        assign_if (column_truth (movie_imdbId data) &&
                   negb (truth (getattr video "imdb_id")))
          "imdb_id" (column_attr (movie_imdbId data)) video in
      let video := <["alternative_titles" := AList (alternativeTitles data)]> video in
      let video :=
        assign_if (negb (truth (getattr video "source")) &&
                   column_truth (movie_format data))
          "source" (convert_to_guessit lib "source" (column_str (movie_format data)))
          video in
      let video :=
        assign_if (negb (truth (getattr video "resolution")) &&
                   column_truth (movie_resolution data))
          "resolution" (column_attr (movie_resolution data)) video in
      let video :=
        assign_if (negb (truth (getattr video "video_codec")) &&
                   column_truth (movie_video_codec data))
          "video_codec"
          (convert_to_guessit lib "video_codec" (column_str (movie_video_codec data)))
          video in
      assign_if (negb (truth (getattr video "audio_codec")) &&
                 column_truth (movie_audio_codec data))
        "audio_codec"
        (convert_to_guessit lib "audio_codec" (column_str (movie_audio_codec data)))
        video
    end
  | Video => video
  end.

(** A track of the cached probe: the keys it has and their values. *)
Record video_track := {
  track_resolution : option attr;
  track_codec : option attr;
  track_frame_rate : option attr      (* the float, or the magnitude *)
}.

Record audio_track := {
  audio_codec : option attr;
  audio_language : option string      (* [track['language'].alpha3] *)
}.

(** [data['ffprobe']] when it is true: the tracks under ['video'] and
    ['audio'], for the keys that are there. *)
Record ffprobe_data := {
  ffprobe_video : option (list video_track);
  ffprobe_audio : option (list audio_track)
}.

(** [video.audio_languages.add(x)]; [None] when the attribute is no set. *)
Definition audio_languages_add (x : string) (video : gmap string attr)
  : option (gmap string attr) :=
  match getattr video "audio_languages" with
  | ASet s => Some (<["audio_languages" := ASet ({[ x ]} ∪ s)]> video)
  | _ => None
  end.

(** [if key in track: if not video.name: video.name = track[key]], for the
    value [field] the track has under the key, when it has the key. *)
Definition assign_from_track (field : option attr) (name : string)
  (video : gmap string attr) : gmap string attr :=
  match field with
  | Some value => assign_if (negb (truth (getattr video name))) name value video
  | None => video
  end.

(** [refine_from_ffprobe(path, video)], from the point where the row of the
    file was found; [file_id_is_dict] is [isinstance(file_id, dict)], and
    [ffprobe = None] stands for a [data['ffprobe']] that is false.  [None]
    is an exception let through: [IndexError] on an empty list of tracks,
    or [AttributeError]. *)
Definition refine_from_ffprobe (file_id_is_dict : bool) (ffprobe : option ffprobe_data)
  (video : gmap string attr) : option (gmap string attr) :=
  if negb file_id_is_dict then Some video
  else
    match ffprobe with
    | None => Some video
    | Some data =>
      video ←
        match ffprobe_video data with
        | None => Some video
        | Some [] => None
        | Some (track :: _) =>
          let video := assign_from_track (track_resolution track) "resolution" video in
          let video := assign_from_track (track_codec track) "video_codec" video in
          Some (assign_from_track (track_frame_rate track) "fps" video)
        end;
      match ffprobe_audio data with
      | None => Some video
      | Some [] => None
      | Some (track :: rest) =>
        let video := assign_from_track (audio_codec track) "audio_codec" video in
        foldl (λ acc track,
                 video ← acc;
                 match audio_language track with
                 | Some l => audio_languages_add l video
                 | None => Some video
                 end)
              (Some video) (track :: rest)
      end
    end.

(** * Properties *)

(** Case analysis on membership in a list given in full. *)
Ltac elem_cases H :=
  repeat (apply elem_of_cons in H as [->|H]); [..|by apply elem_of_nil in H].

(** ** Stable sorting *)

Section SortedFacts.
Context {A K : Type} (ltb : K -> K -> bool) (key : A -> K).

Lemma insert_sorted_Permutation x l :
  insert_sorted ltb key x l ≡ₚ x :: l.
Proof.
  induction l as [|y r IH]; simpl; [done|].
  destruct (ltb (key y) (key x)); [|done].
  rewrite IH. apply perm_swap.
Qed.

Lemma sorted_Permutation l : sorted ltb key l ≡ₚ l.
Proof.
  induction l as [|x r IH]; simpl; [done|].
  by rewrite insert_sorted_Permutation, IH.
Qed.

Lemma elem_of_sorted x l : x ∈ sorted ltb key l ↔ x ∈ l.
Proof. by rewrite sorted_Permutation. Qed.

Lemma sorted_nil_inv l : sorted ltb key l = [] → l = [].
Proof.
  intros H. apply Permutation_nil_r. rewrite <- H.
  symmetry. apply sorted_Permutation.
Qed.

Hypothesis ltb_asym : ∀ a b, ltb a b = true → ltb b a = false.

Lemma insert_sorted_Sorted x l :
  Sorted (key_le ltb key) l → Sorted (key_le ltb key) (insert_sorted ltb key x l).
Proof.
  induction l as [|y r IH]; simpl; intros Hs.
  - repeat constructor.
  - destruct (ltb (key y) (key x)) eqn:E.
    + apply Sorted_inv in Hs as [Hr Hy].
      constructor; [by apply IH|].
      destruct r as [|z r']; simpl.
      * constructor. by apply ltb_asym.
      * destruct (ltb (key z) (key x)).
        -- constructor. by apply HdRel_inv in Hy.
        -- constructor. by apply ltb_asym.
    + constructor; [done|]. by constructor.
Qed.

Lemma sorted_Sorted l : Sorted (key_le ltb key) (sorted ltb key l).
Proof.
  induction l as [|x r IH]; simpl; [constructor|].
  by apply insert_sorted_Sorted.
Qed.

(** Stability: the entries of one key keep their order. *)
Hypothesis ltb_irrefl : ∀ a, ltb a a = false.

Lemma filter_key_insert_sorted `{EqDecision K} (k : K) x l :
  filter (λ y, key y = k) (insert_sorted ltb key x l)
  = filter (λ y, key y = k) (x :: l).
Proof.
  induction l as [|y r IH]; simpl; [done|].
  destruct (ltb (key y) (key x)) eqn:E; [|done].
  rewrite (filter_cons _ y), IH, !filter_cons.
  destruct (decide (key y = k)) as [Hy|]; [|done].
  destruct (decide (key x = k)) as [Hx|]; [|done].
  rewrite Hy, Hx, ltb_irrefl in E. done.
Qed.

Lemma filter_key_sorted `{EqDecision K} (k : K) l :
  filter (λ y, key y = k) (sorted ltb key l) = filter (λ y, key y = k) l.
Proof.
  induction l as [|x r IH]; simpl; [done|].
  by rewrite filter_key_insert_sorted, !filter_cons, IH.
Qed.
End SortedFacts.

Lemma Sorted_weaken {A} (R S : A → A → Prop) (l : list A) :
  (∀ x y, R x y → S x y) → Sorted R l → Sorted S l.
Proof.
  intros HRS. induction 1 as [|x l Hl IH Hx]; constructor; [done|].
  destruct Hx; constructor. by apply HRS.
Qed.

(** Sorting by timestamp puts the earliest entry first and the latest last. *)
Lemma sorted_ts_StronglySorted (l : list attempt) :
  StronglySorted (λ x y, x.2 ≤ y.2) (sorted Z.ltb snd l).
Proof.
  apply Sorted_StronglySorted.
  - intros x y z ??. lia.
  - eapply Sorted_weaken; [|apply sorted_Sorted].
    + unfold key_le. intros x y H. apply Z.ltb_ge in H. done.
    + intros a b H. apply Z.ltb_lt in H. apply Z.ltb_ge. lia.
Qed.

Lemma sorted_ts_head_min (l : list attempt) x r :
  sorted Z.ltb snd l = x :: r → x ∈ l ∧ ∀ y, y ∈ l → x.2 ≤ y.2.
Proof.
  intros E. pose proof (sorted_ts_StronglySorted l) as Hs.
  rewrite E in Hs. apply StronglySorted_inv in Hs as [_ Hall].
  split.
  - apply (elem_of_sorted Z.ltb snd). rewrite E. left.
  - intros y Hy. apply (elem_of_sorted Z.ltb snd) in Hy. rewrite E in Hy.
    apply elem_of_cons in Hy as [->|Hy]; [lia|].
    rewrite Forall_forall in Hall. by apply Hall.
Qed.

Lemma StronglySorted_last_max (l : list attempt) d :
  StronglySorted (λ x y, x.2 ≤ y.2) l →
  ∀ y, y ∈ l → y.2 ≤ (List.last l d).2.
Proof.
  induction 1 as [|x l Hl IH Hx]; intros y Hy.
  - by apply elem_of_nil in Hy.
  - destruct l as [|z l'].
    + apply list_elem_of_singleton in Hy as ->. simpl. lia.
    + change (List.last (x :: z :: l') d) with (List.last (z :: l') d).
      apply elem_of_cons in Hy as [->|Hy]; [|by apply IH].
      rewrite Forall_forall in Hx.
      etrans; [apply (Hx z); by left|]. apply IH. left.
Qed.

Lemma last_elem_of {A} (l : list A) d : l ≠ [] → List.last l d ∈ l.
Proof.
  induction l as [|x [|y r] IH]; intros Hne; [done| left |].
  right. apply IH. done.
Qed.

Lemma sorted_ts_last_max (l : list attempt) x r :
  sorted Z.ltb snd l = x :: r →
  last_of x (sorted Z.ltb snd l) ∈ l ∧
  ∀ y, y ∈ l → y.2 ≤ (last_of x (sorted Z.ltb snd l)).2.
Proof.
  intros E. unfold last_of. split.
  - apply (elem_of_sorted Z.ltb snd). apply last_elem_of. by rewrite E.
  - intros y Hy. apply StronglySorted_last_max.
    + apply sorted_ts_StronglySorted.
    + by apply elem_of_sorted.
Qed.

(** ** The gate *)

(** What the gate computes once the history has entries for the language:
    only the timestamps of the first and last entry in timestamp order
    matter. *)
Lemma is_search_active_entries `{tz : localtime} cfg now lang l i r :
  adaptive_searching cfg = true →
  sorted Z.ltb snd (matching lang l) = i :: r →
  is_search_active cfg now lang (AttemptList l) =
    match (a ← fromtimestamp i.2;
           b ← fromtimestamp (last_of i (i :: r)).2;
           Ok (a, b) : result (datetime * datetime)) with
    | Raise _ => Ok true
    | Ok (a, b) =>
      delay ← extended_search_window (adaptive_searching_delay cfg);
      match delay with
      | None => Ok true
      | Some d =>
        delta ← extended_search_window (adaptive_searching_delta cfg);
        match delta with
        | None => Ok true
        | Some e =>
          frequent_until ← datetime_add a d;
          if now <? frequent_until then Ok true
          else sparse_until ← datetime_add b e;
               if sparse_until <=? now then Ok true else Ok false
        end
      end
    end.
Proof.
  intros Ha E. unfold is_search_active. rewrite Ha. simpl.
  destruct l as [|x l']; [done|].
  change (length (x :: l') =? 0)%nat with false. cbv iota.
  rewrite E. done.
Qed.

Lemma earliest_sorted_head lang l e i r :
  earliest lang l e → sorted Z.ltb snd (matching lang l) = i :: r → i.2 = e.2.
Proof.
  intros [He Hmin] E. apply sorted_ts_head_min in E as [Hi Hle].
  specialize (Hle _ He). specialize (Hmin _ Hi). lia.
Qed.

Lemma most_recent_sorted_last lang l e i r :
  most_recent lang l e → sorted Z.ltb snd (matching lang l) = i :: r →
  (last_of i (i :: r)).2 = e.2.
Proof.
  intros [He Hmax] E. pose proof (sorted_ts_last_max _ _ _ E) as [Hi Hle].
  rewrite E in Hi, Hle.
  specialize (Hle _ He). specialize (Hmax _ Hi). lia.
Qed.

Lemma is_search_active_disabled `{tz : localtime} cfg now lang (h : attempt_text) :
  adaptive_searching cfg = false → is_search_active cfg now lang h = Ok true.
Proof. intros H'. unfold is_search_active. by rewrite H'. Qed.

Lemma is_search_active_no_entry `{tz : localtime} cfg now lang (h : failedAttempts) :
  matching lang (entries h) = [] → is_search_active cfg now lang h = Ok true.
Proof.
  intros H'. unfold is_search_active.
  destruct (adaptive_searching cfg); [|done].
  destruct h as [| |l]; [done|done|]. simpl in *.
  destruct (length l =? 0)%nat; [done|]. by rewrite H'.
Qed.

Lemma is_search_active_unparsable `{tz : localtime} cfg now lang l initial latest :
  earliest lang l initial → most_recent lang l latest →
  unparsable initial.2 ∨ unparsable latest.2 →
  is_search_active cfg now lang (AttemptList l) = Ok true.
Proof.
  intros Hi Hl Hbad.
  destruct (adaptive_searching cfg) eqn:Ha;
    [|by apply is_search_active_disabled].
  destruct (sorted Z.ltb snd (matching lang l)) as [|i r] eqn:E.
  { apply sorted_nil_inv in E. by apply is_search_active_no_entry. }
  rewrite (is_search_active_entries _ _ _ _ _ _ Ha E).
  rewrite (earliest_sorted_head _ _ _ _ _ Hi E).
  rewrite (most_recent_sorted_last _ _ _ _ _ Hl E).
  destruct Hbad as [[e He]|[e He]]; rewrite He; simpl; [done|].
  by destruct (fromtimestamp initial.2).
Qed.

Lemma is_search_active_phases `{tz : localtime} cfg now lang l initial latest i t d e :
  adaptive_searching cfg = true →
  earliest lang l initial → most_recent lang l latest →
  fromtimestamp initial.2 = Ok i → fromtimestamp latest.2 = Ok t →
  extended_search_window (adaptive_searching_delay cfg) = Ok (Some d) →
  extended_search_window (adaptive_searching_delta cfg) = Ok (Some e) →
  is_search_active cfg now lang (AttemptList l) =
    (frequent_until ← datetime_add i d;
     if now <? frequent_until then Ok true
     else sparse_until ← datetime_add t e; Ok (sparse_until <=? now)).
Proof.
  intros Ha Hi Hl Hfi Hft Hd He.
  destruct (sorted Z.ltb snd (matching lang l)) as [|a r] eqn:E.
  { apply sorted_nil_inv in E. destruct Hi as [Hi _].
    rewrite E in Hi. by apply elem_of_nil in Hi. }
  rewrite (is_search_active_entries _ _ _ _ _ _ Ha E).
  rewrite (earliest_sorted_head _ _ _ _ _ Hi E).
  rewrite (most_recent_sorted_last _ _ _ _ _ Hl E).
  rewrite Hfi, Hft, Hd, He. simpl.
  destruct (datetime_add i d) as [a'|]; simpl; [|done].
  destruct (now <? a'); [done|].
  destruct (datetime_add t e) as [b'|]; simpl; [|done].
  by destruct (b' <=? now).
Qed.

Lemma datetime_add_Ok d delta s :
  datetime_add d delta = Ok s ↔
  s = d + delta ∧ datetime_min ≤ d + delta ≤ datetime_max.
Proof.
  unfold datetime_add.
  destruct (datetime_min <=? d + delta) eqn:E1;
    destruct (d + delta <=? datetime_max) eqn:E2; simpl;
    rewrite ?Z.leb_le, ?Z.leb_gt in *; split;
    try (intros [= <-]); try (intros [-> ?]); try done; try lia.
Qed.

Lemma datetime_add_Raise d delta e :
  datetime_add d delta = Raise e ↔
  e = OverflowError ∧ ¬ datetime_min ≤ d + delta ≤ datetime_max.
Proof.
  unfold datetime_add.
  destruct (datetime_min <=? d + delta) eqn:E1;
    destruct (d + delta <=? datetime_max) eqn:E2; simpl;
    rewrite ?Z.leb_le, ?Z.leb_gt in *; split;
    try (intros [= <-]); try (intros [-> ?]); try done; try (split; [done|lia]);
    try lia.
Qed.

(** C1.  With adaptive searching disabled the gate returns [True].  With
    it enabled, the gate returns [True] on a column that does not hold a
    list (NULL, a scalar), on an empty list, when no entry matches the
    language and when the timestamp of the earliest or of the latest
    matching entry cannot be read; otherwise it compares local times: it
    returns [True] while [now] is before the earliest attempt plus the
    delay window, then [True] once [now] is at or after the latest attempt
    plus the delta window, and [False] in between, or raises
    [OverflowError] when a sum is no datetime.  It does not fail open on
    every malformed history: a text that is no Python expression, as the
    empty text is, makes [literal_eval] raise [SyntaxError], which the
    [except ValueError] of the gate lets through, so the gate raises. *)
Theorem is_search_active_not_python `{tz : localtime} cfg now lang :
  (adaptive_searching cfg = true →
   is_search_active cfg now lang NotPython = Raise SyntaxError ∧
   is_search_active cfg now lang Malformed = Ok true) ∧
  (adaptive_searching cfg = false →
   is_search_active cfg now lang NotPython = Ok true) ∧
  ∀ h : failedAttempts,
    (adaptive_searching cfg = false → is_search_active cfg now lang h = Ok true) ∧
    (h = Malformed ∨ h = Scalar ∨ h = AttemptList [] →
       is_search_active cfg now lang h = Ok true) ∧
    (matching lang (entries h) = [] → is_search_active cfg now lang h = Ok true) ∧
    (∀ initial latest,
       earliest lang (entries h) initial → most_recent lang (entries h) latest →
       unparsable initial.2 ∨ unparsable latest.2 →
       is_search_active cfg now lang h = Ok true) ∧
    (∀ initial latest i t delay_window delta_window,
       adaptive_searching cfg = true →
       earliest lang (entries h) initial → most_recent lang (entries h) latest →
       fromtimestamp initial.2 = Ok i → fromtimestamp latest.2 = Ok t →
       extended_search_window (adaptive_searching_delay cfg) = Ok (Some delay_window) →
       extended_search_window (adaptive_searching_delta cfg) = Ok (Some delta_window) →
       (¬ datetime_min ≤ i + delay_window ≤ datetime_max →
          is_search_active cfg now lang h = Raise OverflowError) ∧
       (datetime_min ≤ i + delay_window ≤ datetime_max →
          (now < i + delay_window → is_search_active cfg now lang h = Ok true) ∧
          (i + delay_window ≤ now →
             (¬ datetime_min ≤ t + delta_window ≤ datetime_max →
                is_search_active cfg now lang h = Raise OverflowError) ∧
             (datetime_min ≤ t + delta_window ≤ datetime_max →
                (t + delta_window ≤ now → is_search_active cfg now lang h = Ok true) ∧
                (now < t + delta_window →
                   is_search_active cfg now lang h = Ok false))))).
Proof.
  split; [intros Ha; unfold is_search_active; by rewrite Ha|].
  split; [apply is_search_active_disabled|].
  intros h.
  split; [apply is_search_active_disabled|].
  split.
  { intros [->|[->| ->]]; by apply is_search_active_no_entry. }
  split; [apply is_search_active_no_entry|].
  split.
  - intros initial latest Hi Hl Hbad.
    destruct h as [| |l]; try (destruct Hi as [Hi _]; by apply elem_of_nil in Hi).
    by eapply is_search_active_unparsable.
  - intros initial latest i t d e Ha Hi Hl Hfi Hft Hd He.
    destruct h as [| |l]; try (destruct Hi as [Hi _]; by apply elem_of_nil in Hi).
    simpl in Hi, Hl.
    rewrite (is_search_active_phases _ now _ _ _ _ _ _ _ _ Ha Hi Hl Hfi Hft Hd He).
    split.
    { intros Hout. destruct (datetime_add i d) as [a|x] eqn:E.
      - apply datetime_add_Ok in E as [_ E]. by destruct Hout.
      - apply datetime_add_Raise in E as [-> _]. done. }
    intros Hin.
    assert (datetime_add i d = Ok (i + d)) as -> by (by apply datetime_add_Ok).
    simpl. split.
    { intros Hlt. apply Z.ltb_lt in Hlt. by rewrite Hlt. }
    intros Hge.
    assert ((now <? i + d) = false) as -> by (apply Z.ltb_ge; lia).
    split.
    { intros Hout. destruct (datetime_add t e) as [b|x] eqn:E.
      - apply datetime_add_Ok in E as [_ E]. by destruct Hout.
      - apply datetime_add_Raise in E as [-> _]. done. }
    intros Hin2.
    assert (datetime_add t e = Ok (t + e)) as -> by (by apply datetime_add_Ok).
    simpl. split; intros Hc.
    + assert ((t + e <=? now) = true) as -> by (apply Z.leb_le; lia). done.
    + assert ((t + e <=? now) = false) as -> by (apply Z.leb_gt; lia). done.
Qed.

(** ** Recording an attempt *)

Lemma string_ltb_irrefl s : String.ltb s s = false.
Proof.
  unfold String.ltb. pose proof (String.compare_antisym s s) as H.
  destruct (String.compare s s); [done|discriminate H|done].
Qed.

Lemma string_ltb_asym a b : String.ltb a b = true → String.ltb b a = false.
Proof.
  unfold String.ltb. rewrite (String.compare_antisym a b).
  by destruct (String.compare b a).
Qed.

Lemma string_ltb_leb a b : String.ltb b a = false ↔ String.leb a b = true.
Proof.
  unfold String.ltb, String.leb. rewrite (String.compare_antisym a b).
  by destruct (String.compare b a).
Qed.

(** The list that [updateFailedAttempts] sorts by language. *)
Lemma updateFailedAttempts_eq `{tz : localtime} now lang h :
  updateFailedAttempts now lang h =
    AttemptList
      (sorted String.ltb fst
         ((sorted Z.ltb snd (not_matching lang (entries h))
           ++ match sorted Z.ltb snd (matching lang (entries h)) with
              | [] => []
              | initial :: _ => [initial]
              end)
          ++ [(lang, timestamp now)])).
Proof.
  unfold updateFailedAttempts, str.
  destruct h as [| |l]; simpl; try done.
  destruct (sorted Z.ltb snd (matching lang l)); [|done].
  by rewrite app_nil_r.
Qed.

Lemma matching_sorted_lang L (l : list attempt) :
  matching L (sorted String.ltb fst l) = matching L l.
Proof.
  unfold matching.
  apply (filter_key_sorted String.ltb fst string_ltb_irrefl L l).
Qed.

Lemma matching_not_matching L lang l :
  matching L (not_matching lang l) = if decide (L = lang) then [] else matching L l.
Proof.
  unfold matching, not_matching.
  induction l as [|x r IH]; [by destruct (decide (L = lang))|].
  rewrite (filter_cons (λ y, y.1 = L) x r), (filter_cons (λ y, y.1 ≠ lang) x r).
  destruct (decide (L = lang)) as [->|HL].
  - destruct (decide (x.1 ≠ lang)) as [Hx|Hx]; [|exact IH].
    rewrite filter_cons, decide_False by done. exact IH.
  - destruct (decide (x.1 ≠ lang)) as [Hx|Hx].
    + rewrite filter_cons. destruct (decide (x.1 = L)); [f_equal|]; exact IH.
    + apply dec_stable in Hx. rewrite decide_False by congruence. exact IH.
Qed.

Lemma matching_sorted_ts L (l : list attempt) :
  matching L (sorted Z.ltb snd l) ≡ₚ matching L l.
Proof. unfold matching. by rewrite sorted_Permutation. Qed.

Lemma matching_app L (l1 l2 : list attempt) :
  matching L (l1 ++ l2) = matching L l1 ++ matching L l2.
Proof. apply filter_app. Qed.

Lemma matching_singleton L (x : attempt) :
  matching L [x] = if decide (x.1 = L) then [x] else [].
Proof. done. Qed.

Lemma elem_of_matching L (l : list attempt) x :
  x ∈ matching L l ↔ x.1 = L ∧ x ∈ l.
Proof. unfold matching. by rewrite list_elem_of_filter. Qed.

(** The entries of language [L] after an update. *)
Lemma matching_updateFailedAttempts `{tz : localtime} now lang h L :
  matching L (entries (updateFailedAttempts now lang h)) ≡ₚ
    if decide (L = lang)
    then match sorted Z.ltb snd (matching lang (entries h)) with
         | [] => [(lang, timestamp now)]
         | initial :: _ => [initial; (lang, timestamp now)]
         end
    else matching L (entries h).
Proof.
  rewrite updateFailedAttempts_eq. simpl.
  rewrite matching_sorted_lang, !matching_app, matching_sorted_ts,
    matching_not_matching, (matching_singleton L (lang, timestamp now)). simpl.
  destruct (sorted Z.ltb snd (matching lang (entries h))) as [|i r] eqn:E.
  - destruct (decide (L = lang)) as [->|].
    + by rewrite decide_True.
    + rewrite decide_False by done. by rewrite !app_nil_r.
  - assert (i.1 = lang) as Hi.
    { apply sorted_ts_head_min in E as [Hi _].
      by apply elem_of_matching in Hi as [? _]. }
    rewrite matching_singleton, Hi.
    destruct (decide (L = lang)) as [->|].
    + by rewrite !decide_True.
    + rewrite !decide_False by done. by rewrite !app_nil_r.
Qed.

Lemma matching_updateFailedAttempts_same `{tz : localtime} now lang h :
  matching lang (entries (updateFailedAttempts now lang h)) =
    match sorted Z.ltb snd (matching lang (entries h)) with
    | [] => [(lang, timestamp now)]
    | initial :: _ => [initial; (lang, timestamp now)]
    end.
Proof.
  rewrite updateFailedAttempts_eq. simpl.
  rewrite matching_sorted_lang, !matching_app, (matching_singleton lang (lang, timestamp now)).
  simpl. rewrite decide_True by done.
  assert (matching lang (sorted Z.ltb snd (not_matching lang (entries h))) = []) as ->.
  { apply Permutation_nil_r. rewrite matching_sorted_ts, matching_not_matching.
    by rewrite decide_True. }
  destruct (sorted Z.ltb snd (matching lang (entries h))) as [|i r] eqn:E; [done|].
  apply sorted_ts_head_min in E as [Hi _].
  apply elem_of_matching in Hi as [Hi _].
  rewrite matching_singleton, decide_True by done. done.
Qed.

Lemma updateFailedAttempts_Sorted `{tz : localtime} now lang h :
  Sorted (λ x y, String.leb x.1 y.1 = true)
    (entries (updateFailedAttempts now lang h)).
Proof.
  rewrite updateFailedAttempts_eq. simpl.
  eapply Sorted_weaken; [|apply sorted_Sorted, string_ltb_asym].
  intros x y H. by apply string_ltb_leb.
Qed.

(** C2.  Retention.  On a history with at most two entries per language,
    [updateFailedAttempts] returns a history with at most two entries per
    language.  Of the desired language it holds the earliest existing entry
    (if there is one) followed by a new entry timestamped now, and nothing
    else; the entries of every other language are the ones it had; and the
    result is sorted by language code. *)
Theorem updateFailedAttempts_retention `{tz : localtime} now lang h :
  (∀ L, (length (matching L (entries h)) ≤ 2)%nat) →
  ∃ updated,
    updateFailedAttempts now lang h = AttemptList updated ∧
    (∀ L, (length (matching L updated) ≤ 2)%nat) ∧
    (matching lang (entries h) = [] →
       matching lang updated = [(lang, timestamp now)]) ∧
    (matching lang (entries h) ≠ [] →
       ∃ initial, earliest lang (entries h) initial ∧
         matching lang updated = [initial; (lang, timestamp now)]) ∧
    (∀ L, L ≠ lang → matching L updated ≡ₚ matching L (entries h)) ∧
    Sorted (λ x y, String.leb x.1 y.1 = true) updated.
Proof.
  intros Hinv.
  pose proof (updateFailedAttempts_eq now lang h) as Heq.
  destruct (updateFailedAttempts now lang h) as [| |updated] eqn:Hu;
    [discriminate Heq|discriminate Heq|].
  clear Heq. exists updated. split; [done|].
  pose proof (matching_updateFailedAttempts_same now lang h) as Hsame.
  pose proof (updateFailedAttempts_Sorted now lang h) as Hsorted.
  assert (∀ L, L ≠ lang → matching L updated ≡ₚ matching L (entries h)) as Hother.
  { intros L HL. pose proof (matching_updateFailedAttempts now lang h L) as H.
    rewrite Hu in H. simpl in H. by rewrite decide_False in H. }
  rewrite Hu in Hsame, Hsorted. simpl in Hsame, Hsorted.
  repeat split; [| | |done|done].
  - intros L. destruct (decide (L = lang)) as [->|HL].
    + rewrite Hsame.
      destruct (sorted Z.ltb snd (matching lang (entries h))); simpl; lia.
    + rewrite (Hother L HL). apply Hinv.
  - intros Hnone. rewrite Hsame, Hnone. done.
  - intros Hsome.
    destruct (sorted Z.ltb snd (matching lang (entries h))) as [|i r] eqn:E.
    { by apply sorted_nil_inv in E. }
    exists i. split; [|done].
    by apply sorted_ts_head_min in E.
Qed.

(** ** The two windows *)


(** The white space of [int], by code point. *)
Lemma is_space_spec c :
  is_space c = bool_decide (nat_of_ascii c ∈ [9; 10; 11; 12; 13; 32; 133; 160]%nat).
Proof. destruct c as [[] [] [] [] [] [] [] []]; vm_compute; reflexivity. Qed.

(** [int] on texts of the settings: a sign, white space at the ends and
    single underscores are read, and nothing else. *)
Lemma int_reads :
  int "90" = Ok 90 ∧ int "007" = Ok 7 ∧ int "-5" = Ok (-5) ∧ int "+5" = Ok 5 ∧
  int " 90" = Ok 90 ∧ int "90 " = Ok 90 ∧ int " -5 " = Ok (-5) ∧
  int "1_0" = Ok 10 ∧ int "+1_2_3" = Ok 123 ∧
  int "" = Raise ValueError ∧ int "   " = Raise ValueError ∧
  int "+" = Raise ValueError ∧ int "- 5" = Raise ValueError ∧
  int "+-5" = Raise ValueError ∧ int "--5" = Raise ValueError ∧
  int "_10" = Raise ValueError ∧ int "10_" = Raise ValueError ∧
  int "1__0" = Raise ValueError ∧ int "-_5" = Raise ValueError ∧
  int "9 0" = Raise ValueError ∧ int "9.5" = Raise ValueError ∧
  int "x" = Raise ValueError.
Proof. vm_compute. repeat split. Qed.

(** [int] of a text of one character: the digit, or [ValueError]. *)
Lemma int_char c :
  int (String c "") = match digit_of_ascii c with
                      | Some d => Ok d
                      | None => Raise ValueError
                      end.
Proof. destruct c as [[] [] [] [] [] [] [] []]; reflexivity. Qed.







(** ** The gate right after an attempt is recorded *)

Lemma most_recent_exists lang l x :
  x ∈ matching lang l → ∃ latest, most_recent lang l latest.
Proof.
  intros Hx.
  destruct (sorted Z.ltb snd (matching lang l)) as [|i r] eqn:E.
  { apply sorted_nil_inv in E. rewrite E in Hx. by apply elem_of_nil in Hx. }
  exists (last_of i (sorted Z.ltb snd (matching lang l))).
  by apply (sorted_ts_last_max _ _ _ E).
Qed.




(** ** The language set of the automatic flow *)

(** The events that query the providers. *)
Lemma is_query_spec e :
  is_query e = true ↔
  (∃ ps S min_score hi_, e = DownloadBest ps S min_score hi_) ∨
  (∃ ps S, e = ListAll ps S).
Proof.
  split.
  - destruct e; try discriminate; intros _; [left|right]; eauto.
  - intros [(? & ? & ? & ? & ->)|(? & ? & ->)]; reflexivity.
Qed.

(** The other variables of the loop hold what the last item gave them. *)
Lemma generate_loop_body_flags t st l hi_item forced_item :
  loop_hi (generate_loop_body t st (l, hi_item, forced_item))
  = (if bool_decide (hi_item = "True") then "force HI" else "force non-HI") ∧
  only_foreign (generate_loop_body t st (l, hi_item, forced_item))
  = bool_decide (forced_item = "True").
Proof. split; reflexivity. Qed.

Lemma generate_loop_body_variant t st l :
  language_set (generate_loop_body t st l) = {[ declared_variant t l ]} ∪ language_set st.
Proof.
  destruct l as [[l hi_item] forced_item].
  unfold generate_loop_body, declared_variant, _get_lang_obj, rebuild. simpl.
  f_equal. f_equal.
  destruct (custom_language t (alpha3_from_alpha2 t l)); simpl;
    destruct (bool_decide (forced_item = "True")) eqn:Hf; simpl;
    destruct (decide (hi_item = "True")) as [Hh|Hh].
  all: try (rewrite (bool_decide_eq_true_2 _ Hh); simpl; reflexivity).
  all: rewrite (bool_decide_eq_false_2 _ Hh); simpl; reflexivity.
Qed.

Lemma generate_loop_fold t languages st v :
  v ∈ language_set (fold_left (generate_loop_body t) languages st) ↔
  v ∈ language_set st ∨ ∃ l, l ∈ languages ∧ v = declared_variant t l.
Proof.
  revert st. induction languages as [|l r IH]; intros st; simpl.
  - split; [by left|]. intros [H|(l & Hl & _)]; [done|].
    by apply elem_of_nil in Hl.
  - rewrite IH, generate_loop_body_variant, elem_of_union, elem_of_singleton.
    split.
    + intros [[->|H]|(l' & Hl' & ->)].
      * right. exists l. split; [left|done].
      * by left.
      * right. exists l'. split; [by right|done].
    + intros [H|(l' & Hl' & ->)]; [left; by right|].
      apply elem_of_cons in Hl' as [->|Hl']; [left; by left|].
      right. by exists l'.
Qed.

Lemma elem_of_generate_loop t languages v :
  v ∈ language_set (generate_loop t languages) ↔
  ∃ l, l ∈ languages ∧ v = declared_variant t l.
Proof.
  unfold generate_loop. rewrite generate_loop_fold. simpl.
  split; [|by right]. intros [H|H]; [|done]. by apply elem_of_empty in H.
Qed.

Lemma generate_loop_singleton t l :
  language_set (generate_loop t [l]) = {[ declared_variant t l ]}.
Proof.
  unfold generate_loop. simpl. rewrite generate_loop_body_variant. simpl.
  by rewrite (right_id_L ∅ (∪)).
Qed.

(** What [generate_subtitles] leaves behind: nothing, the log that all
    providers are throttled, or one query with the set that its loop
    built. *)
Lemma generate_subtitles_trace t w cfg languages media_type forced_minimum_score
    is_upgrade results trace :
  generate_subtitles t w cfg languages media_type forced_minimum_score is_upgrade
    = Ok (results, trace) →
  trace = [] ∨ trace = [Log throttled_msg] ∨
  ∃ min_score,
    trace = [DownloadBest (providers w) (language_set (generate_loop t languages))
               min_score (loop_hi (generate_loop t languages))].
Proof.
  unfold generate_subtitles.
  case_bool_decide; [intros [= <- <-]; by left|].
  destruct (get_video w); [|intros [= <- <-]; by left].
  destruct (_get_scores t media_type _ _) as [[[m x] sc]|]; [|done].
  cbn [mbind result_bind bind].
  case_bool_decide; [|intros [= <- <-]; right; by left].
  repeat case_match; intros [= <- <-]; right; right; eauto.
Qed.

(** With a language, a video and a provider, [generate_subtitles] makes its
    query. *)
Lemma generate_subtitles_queries t w cfg languages media_type forced_minimum_score
    is_upgrade floor :
  languages ≠ [] → get_video w = true → providers w ≠ [] →
  _get_scores t media_type (minimum_score_movie cfg) (minimum_score cfg) = Ok floor →
  ∃ results,
    generate_subtitles t w cfg languages media_type forced_minimum_score is_upgrade
    = Ok (results,
          [DownloadBest (providers w) (language_set (generate_loop t languages))
             (forced_min_score forced_minimum_score floor.1.1)
             (loop_hi (generate_loop t languages))]) ∧
    Forall (λ r, ∃ s, s ∈ offered w ∧ r = result_of t is_upgrade s) results.
Proof.
  intros Hl Hv Hp Hfloor. destruct floor as [[m x] sc].
  unfold generate_subtitles. rewrite Hfloor, Hv.
  rewrite (bool_decide_eq_false_2 _ Hl), (bool_decide_eq_true_2 _ Hp).
  cbn [mbind result_bind bind fst].
  repeat case_match; eexists; (split; [reflexivity|]); try by constructor.
  apply Forall_forall. intros r Hr.
  apply list_elem_of_fmap in Hr as (s & -> & Hs). exists s. split; [|done].
  unfold download_best_subtitles in Hs.
  apply list_elem_of_omap in Hs as (lang & _ & Hbest).
  assert (∀ l b, best_of l = Some b → b ∈ l) as Hin.
  { clear. induction l as [|y r IH]; intros b; simpl; [done|].
    destruct (best_of r) as [b'|] eqn:E.
    - case_match; intros [= <-]; [left|right; by apply IH].
    - intros [= <-]. left. }
  apply Hin in Hbest. by apply list_elem_of_filter in Hbest as [_ ?].
Qed.

(** C6.  In the automatic flow the language set that [generate_subtitles]
    queries the providers with holds the variants that the requested
    tuples declare, one for each tuple, and no other: a variant of the set
    is hearing-impaired only if a tuple says so.  With a language, a video
    and a provider the query is made.  The token ["en:forced"] of a movie
    makes [_wanted_movie] record the attempt and query the set of one
    variant, English, forced and not hearing-impaired, once; what it then
    writes to the history are the results of that query. *)
Theorem generate_subtitles_language_set `{tz : localtime} t :
  (∀ w cfg languages media_type forced_minimum_score is_upgrade results trace
     providers S min_score hi_,
     generate_subtitles t w cfg languages media_type forced_minimum_score is_upgrade
       = Ok (results, trace) →
     DownloadBest providers S min_score hi_ ∈ trace →
     (∀ v, v ∈ S ↔ ∃ l, l ∈ languages ∧ v = declared_variant t l) ∧
     (∀ v, v ∈ S → hi v = true → ∃ l, l ∈ languages ∧ l.1.2 = "True")) ∧
  (∀ w cfg languages media_type forced_minimum_score is_upgrade floor,
     languages ≠ [] → get_video w = true → providers w ≠ [] →
     _get_scores t media_type (minimum_score_movie cfg) (minimum_score cfg) = Ok floor →
     ∃ results min_score hi_,
       generate_subtitles t w cfg languages media_type forced_minimum_score is_upgrade
       = Ok (results,
             [DownloadBest (providers w) (language_set (generate_loop t languages))
                min_score hi_])) ∧
  (∀ st l, language_set (generate_loop_body t st l)
           = {[ declared_variant t l ]} ∪ language_set st) ∧
  (∀ w cfg now (fetched : failedAttempts) floor,
     is_search_active cfg now "en:forced" fetched = Ok true →
     get_video w = true → providers w ≠ [] →
     _get_scores t "movie" (minimum_score_movie cfg) (minimum_score cfg) = Ok floor →
     ∃ results,
       Forall (λ r, ∃ s, s ∈ offered w ∧ r = result_of t false s) results ∧
       _wanted_movie t w cfg now ["en:forced"] ["en:forced"] fetched
       = Ok (updateFailedAttempts now "en:forced" fetched,
             DownloadBest (providers w)
               {[ {| basename := basename (_get_lang_obj t (alpha3_from_alpha2 t "en"));
                     forced := true; hi := false |} ]}
               floor.1.1 "force non-HI"
             :: ((λ r, HistoryLog 1 (language_code r) (result_score r)) <$> results))).
Proof.
  split; [|split; [|split; [apply generate_loop_body_variant|]]].
  - intros w cfg languages media_type fms upg results trace ps S m hi_ Hrun Hin.
    apply generate_subtitles_trace in Hrun as [->|[->|[m' ->]]].
    + by apply elem_of_nil in Hin.
    + apply list_elem_of_singleton in Hin. discriminate Hin.
    + apply list_elem_of_singleton in Hin. injection Hin as -> -> -> ->.
      split; [apply elem_of_generate_loop|].
      intros v Hv Hhi. apply elem_of_generate_loop in Hv as (l & Hl & ->).
      exists l. split; [done|]. simpl in Hhi.
      by apply bool_decide_eq_true_1 in Hhi.
  - intros w cfg languages media_type fms upg floor Hl Hv Hp Hfloor.
    destruct (generate_subtitles_queries t w cfg languages media_type fms upg floor
                Hl Hv Hp Hfloor) as (results & Hrun & _).
    eauto.
  - intros w cfg now fetched floor Hgate Hv Hp Hfloor.
    unfold _wanted_movie. cbn [_wanted_languages].
    rewrite bool_decide_eq_true_2 by left.
    rewrite Hgate. cbn [mbind result_bind bind].
    destruct (generate_subtitles_queries t w cfg [language_tuple "en:forced"] "movie"
                None false floor ltac:(done) Hv Hp Hfloor) as (results & Hrun & Hres).
    rewrite Hrun. cbn [mbind result_bind bind app].
    rewrite generate_loop_singleton.
    exists results. split; [exact Hres|reflexivity].
Qed.

(** ** The language set of the manual search *)









(** ** The series rule of the manual search *)

Lemma skip_wrong_episode_series s matches :
  skip_wrong_episode "series" s matches = true ↔
  ¬ (hash_verifiable s = false ∧ "hash" ∈ matches) ∧
  ¬ ["series"; "season"; "episode"] ⊆ matches.
Proof.
  unfold skip_wrong_episode. rewrite bool_decide_eq_true_2 by done.
  rewrite andb_true_iff, negb_true_iff, bool_decide_eq_false.
  destruct (hash_verifiable s); simpl.
  - split; intros [_ H]; split; [|done|done|done]. intros [? _]. done.
  - destruct (decide ("hash" ∈ matches)) as [Hh|Hh].
    + rewrite (bool_decide_eq_true_2 _ Hh). split; [intros [? _]; done|].
      intros [H _]. destruct H. done.
    + rewrite (bool_decide_eq_false_2 _ Hh).
      split; intros [_ H]; split; [|done|done|done]. intros [_ ?]. done.
Qed.

(** C3, as amended.  In a manual search for a series, a candidate whose
    matches could be computed is skipped before scoring exactly when it is
    not a hash match of a provider whose hashes cannot be verified and its
    matches do not cover series, season and episode; it goes on to scoring
    otherwise.  For another media type no candidate is skipped by this
    rule. *)
Theorem series_skip_rule s :
  (∀ matches, get_matches s = Some matches →
     (candidate_fate_of "series" s = WrongEpisode ↔
        ¬ (hash_verifiable s = false ∧ "hash" ∈ matches) ∧
        ¬ ["series"; "season"; "episode"] ⊆ matches) ∧
     (candidate_fate_of "series" s = Scored ↔
        (hash_verifiable s = false ∧ "hash" ∈ matches) ∨
        ["series"; "season"; "episode"] ⊆ matches)) ∧
  (∀ media_type, media_type ≠ "series" →
     candidate_fate_of media_type s ≠ WrongEpisode).
Proof.
  split.
  - intros matches Hm. unfold candidate_fate_of. rewrite Hm.
    pose proof (skip_wrong_episode_series s matches) as Hskip.
    destruct (skip_wrong_episode "series" s matches).
    + split; [split; [intros _; by apply Hskip|done]|].
      split; [done|]. intros H. apply proj1 in Hskip.
      destruct (Hskip eq_refl) as [H1 H2]. by destruct H.
    + split.
      * split; [done|]. intros H. apply Hskip in H. done.
      * split; [intros _|done].
        destruct (decide (hash_verifiable s = false ∧ "hash" ∈ matches)); [by left|].
        destruct (decide (["series"; "season"; "episode"] ⊆ matches)); [by right|].
        exfalso. assert (false = true); [|done]. by apply Hskip.
  - intros media_type Hne. unfold candidate_fate_of, skip_wrong_episode.
    rewrite bool_decide_eq_false_2 by done. by destruct (get_matches s).
Qed.

(** ** The floor of the scores *)

(** [_get_scores]: the handler is the one of the media type, and the
    percentage is the setting read by [int], or 240 (an episode) or 60 (a
    movie) hundredths of the maximum when the setting is empty. *)
Lemma _get_scores_eq t media_type min_movie min_ep :
  _get_scores t media_type min_movie min_ep =
    if decide (media_type = "series") then
      if decide (min_ep = "")
      then Ok (get_scores (series_score t) (Z.quot 24000 (max_score (series_score t))))
      else min_score_ ← int min_ep; Ok (get_scores (series_score t) min_score_)
    else
      if decide (min_movie = "")
      then Ok (get_scores (movie_score t) (Z.quot 6000 (max_score (movie_score t))))
      else min_score_ ← int min_movie; Ok (get_scores (movie_score t) min_score_).
Proof.
  unfold _get_scores, int_of_quotient.
  destruct (decide (media_type = "series")) as [->|Hm].
  - rewrite bool_decide_eq_true_2 by done.
    destruct (decide (min_ep = "")) as [->|He]; [done|].
    by rewrite bool_decide_eq_false_2.
  - rewrite bool_decide_eq_false_2 by (intros ?; by apply Hm).
    destruct (decide (min_movie = "")) as [->|He]; [done|].
    by rewrite bool_decide_eq_false_2.
Qed.

(** ** No providers *)

(** C8, as amended.  With an empty provider list, [generate_subtitles]
    yields nothing and [manual_search] returns [None], and neither queries
    the providers.  [manual_search] always logs that all providers are
    throttled; [generate_subtitles] logs it when it reaches its provider
    check, that is when the list of languages is not empty and the video
    was resolved, the score settings being readable. *)
Theorem no_providers_no_query t w cfg media_type :
  (∀ languages forced_minimum_score is_upgrade floor,
     providers w = [] →
     _get_scores t media_type (minimum_score_movie cfg) (minimum_score cfg) = Ok floor →
     ∃ trace,
       generate_subtitles t w cfg languages media_type forced_minimum_score is_upgrade
       = Ok ([], trace) ∧
       Forall (λ e, is_query e = false) trace ∧
       (languages ≠ [] → get_video w = true → trace = [Log throttled_msg])) ∧
  (∀ language_items,
     manual_search t w cfg language_items [] media_type = Ok (None, [Log throttled_msg])).
Proof.
  split; [|done].
  intros languages fms up floor Hp Hfloor. unfold generate_subtitles.
  destruct (decide (languages = [])) as [->|Hl].
  { exists []. by repeat split. }
  rewrite bool_decide_eq_false_2 by done.
  destruct (get_video w).
  - rewrite Hfloor. destruct floor as [[m mx] sc]. cbn [mbind result_bind bind].
    rewrite Hp. exists [Log throttled_msg]. split; [done|].
    split; [|done]. by repeat constructor.
  - exists []. by repeat split.
Qed.

(** ** The minimum score *)

(** C10.  A [forced_minimum_score] of 0 is false to [if
    forced_minimum_score:], so the minimum score is not set to 1: the call
    does what it does without a forced score, and a search is run with the
    floor of [_get_scores]. *)
Theorem forced_minimum_score_zero t w cfg languages media_type is_upgrade :
  generate_subtitles t w cfg languages media_type (Some 0) is_upgrade
  = generate_subtitles t w cfg languages media_type None is_upgrade ∧
  (∀ min_score max_score scores,
     languages ≠ [] → get_video w = true → providers w ≠ [] →
     _get_scores t media_type (minimum_score_movie cfg) (minimum_score cfg)
       = Ok (min_score, max_score, scores) →
     ∃ results,
       generate_subtitles t w cfg languages media_type (Some 0) is_upgrade
       = Ok (results,
             [DownloadBest (providers w) (language_set (generate_loop t languages))
                min_score (loop_hi (generate_loop t languages))])) ∧
  (∀ min_score, forced_min_score (Some 0) min_score = min_score).
Proof.
  split; [done|]. split; [|done].
  intros min_score max_score scores Hl Hv Hp Hfloor.
  unfold generate_subtitles. rewrite Hfloor, Hv.
  rewrite (bool_decide_eq_false_2 _ Hl), (bool_decide_eq_true_2 _ Hp).
  cbn [mbind result_bind bind].
  change (forced_min_score (Some 0) min_score) with min_score.
  repeat case_match; eauto.
Qed.

(** ** The upgrade flow *)

Lemma best_of_elem_of l b : best_of l = Some b → b ∈ l.
Proof.
  revert b. induction l as [|s r IH]; intros b; simpl; [done|].
  destruct (best_of r) as [b'|] eqn:E.
  - case_match; intros [= <-]; [left|right; by apply IH].
  - intros [= <-]. left.
Qed.

Lemma best_of_cons_is_Some s r : is_Some (best_of (s :: r)).
Proof. simpl. destruct (best_of r); [case_match|]; eauto. Qed.

Lemma elem_of_download_best_subtitles offered ls m s :
  s ∈ download_best_subtitles offered ls m →
  s ∈ offered ∧ language s ∈ ls ∧ m ≤ score s.
Proof.
  unfold download_best_subtitles. rewrite list_elem_of_omap.
  intros (lang & Hlang & Hbest). apply best_of_elem_of in Hbest.
  apply list_elem_of_filter in Hbest as [[<- Hm] Hs].
  by apply elem_of_elements in Hlang.
Qed.

Lemma download_best_subtitles_nonempty offered ls m s :
  s ∈ offered → language s ∈ ls → m ≤ score s →
  download_best_subtitles offered ls m ≠ [].
Proof.
  intros Hs Hl Hm Hnil.
  assert (s ∈ filter (λ s', language s' = language s ∧ meets_min_score m s') offered)
    as Hf by (by apply list_elem_of_filter).
  destruct (filter _ offered) as [|x r] eqn:E; [by apply elem_of_nil in Hf|].
  destruct (best_of_cons_is_Some x r) as [b Hb].
  assert (b ∈ download_best_subtitles offered ls m) as Hin.
  { unfold download_best_subtitles. apply list_elem_of_omap.
    exists (language s). split; [by apply elem_of_elements|]. by rewrite E. }
  rewrite Hnil in Hin. by apply elem_of_nil in Hin.
Qed.

Lemma upgrade_one_eq t w cfg media_type row floor :
  row_score row ≠ 0 → providers w ≠ [] → get_video w = true →
  _get_scores t media_type (minimum_score_movie cfg) (minimum_score cfg) = Ok floor →
  let st := generate_loop t [upgrade_language_tuple (row_language row)] in
  let query := DownloadBest (providers w) (language_set st) (row_score row + 1)
                 (loop_hi st) in
  upgrade_one t w cfg media_type row =
    match download_best_subtitles (offered w) (language_set st) (row_score row + 1) with
    | [] => Ok [query]
    | s :: _ =>
        if saving_raises w then Ok [query]
        else Ok [query; HistoryLog 3 (language_code (result_of t true s)) (score s)]
    end.
Proof.
  intros Hs Hp Hv Hfloor st query. unfold upgrade_one, generate_subtitles.
  rewrite (bool_decide_eq_false_2 _ Hp), Hv, Hfloor, (bool_decide_eq_true_2 _ Hp).
  destruct floor as [[m mx] sc].
  rewrite bool_decide_eq_false_2 by done.
  cbn [mbind result_bind bind].
  unfold forced_min_score. rewrite (bool_decide_eq_true_2 _ Hs).
  fold st.
  destruct (download_best_subtitles (offered w) (language_set st) (row_score row + 1))
    as [|s r] eqn:E.
  - by rewrite bool_decide_eq_true_2.
  - rewrite bool_decide_eq_false_2 by done.
    by destruct (saving_raises w).
Qed.

(** C4, as amended.  In the upgrade flow, with a previous score other than
    0, the search is run with the minimum score [previous + 1].  Nothing is
    downloaded when every candidate in the requested language scores at
    most the previous score; what is downloaded scores strictly more and is
    written to the history with action 3, under the two-letter code of its
    language with its modifier; and when a candidate in the requested
    language scores strictly more and saving does not fail, a download is
    written to the history with action 3.  With a previous score of 350, a
    candidate at 350 is rejected and one at 355 is accepted, and written to
    the history as [en], or as [en:hi] when it is hearing-impaired. *)
Theorem upgrade_strictly_better t w cfg media_type row floor :
  row_score row ≠ 0 → providers w ≠ [] → get_video w = true →
  _get_scores t media_type (minimum_score_movie cfg) (minimum_score cfg) = Ok floor →
  let st := generate_loop t [upgrade_language_tuple (row_language row)] in
  let query := DownloadBest (providers w) (language_set st) (row_score row + 1)
                 (loop_hi st) in
  (upgrade_one t w cfg media_type row = Ok [query] ∨
   ∃ s, s ∈ offered w ∧ row_score row < score s ∧
        upgrade_one t w cfg media_type row
        = Ok [query; HistoryLog 3 (language_code (result_of t true s)) (score s)]) ∧
  ((∀ s, s ∈ offered w → language s ∈ language_set st → score s ≤ row_score row) →
     upgrade_one t w cfg media_type row = Ok [query]) ∧
  (∀ s, s ∈ offered w → language s ∈ language_set st → row_score row < score s →
     saving_raises w = false →
     ∃ s', s' ∈ offered w ∧ row_score row < score s' ∧
       upgrade_one t w cfg media_type row
       = Ok [query; HistoryLog 3 (language_code (result_of t true s')) (score s')]) ∧
  (∀ s, meets_min_score (row_score row + 1) s ↔ row_score row < score s) ∧
  (∀ s, language_code (result_of t true s)
        = let code2 :=
            alpha2_from_alpha3 t
              match custom_alpha3 t (language s) with
              | Some alpha3 => alpha3
              | None => basename (language s)
              end in
          if hi (language s) then code2 +:+ ":hi"
          else if forced (language s) then code2 +:+ ":forced"
          else code2) ∧
  upgrade_one sample_tables
    (sample_world ["opensubtitles"] true [sample_candidate eng 350]) sample_settings
    "series" {| row_language := "en"; row_score := 350 |}
  = Ok [DownloadBest ["opensubtitles"] {[ eng ]} 351 "force non-HI"] ∧
  upgrade_one sample_tables
    (sample_world ["opensubtitles"] true [sample_candidate eng 355]) sample_settings
    "series" {| row_language := "en"; row_score := 350 |}
  = Ok [DownloadBest ["opensubtitles"] {[ eng ]} 351 "force non-HI";
        HistoryLog 3 "en" 355] ∧
  upgrade_one sample_tables
    (sample_world ["opensubtitles"] true [sample_candidate (hi_toggled eng) 355])
    sample_settings "series" {| row_language := "en:hi"; row_score := 350 |}
  = Ok [DownloadBest ["opensubtitles"] {[ hi_toggled eng ]} 351 "force HI";
        HistoryLog 3 "en:hi" 355].
Proof.
  intros Hs Hp Hv Hfloor st query.
  pose proof (upgrade_one_eq t w cfg media_type row floor Hs Hp Hv Hfloor) as Heq.
  cbv zeta in Heq. fold st in Heq. fold query in Heq.
  split; [|split; [|split; [|split; [|split; [|split; [|split]]]]]].
  - rewrite Heq.
    destruct (download_best_subtitles _ _ _) as [|s r] eqn:E; [by left|].
    destruct (saving_raises w); [by left|]. right. exists s.
    assert (s ∈ download_best_subtitles (offered w) (language_set st) (row_score row + 1))
      as Hin by (rewrite E; left).
    apply elem_of_download_best_subtitles in Hin as (? & ? & ?).
    split; [done|]. split; [lia|done].
  - intros Hall. rewrite Heq.
    destruct (download_best_subtitles _ _ _) as [|s r] eqn:E; [done|].
    assert (s ∈ download_best_subtitles (offered w) (language_set st) (row_score row + 1))
      as Hin by (rewrite E; left).
    apply elem_of_download_best_subtitles in Hin as (Ho & Hl & Hm).
    specialize (Hall s Ho Hl). lia.
  - intros s Ho Hl Hm Hsave. rewrite Heq, Hsave.
    destruct (download_best_subtitles _ _ _) as [|s' r] eqn:E.
    + exfalso. eapply (download_best_subtitles_nonempty _ _ _ s); [done|done| |exact E].
      lia.
    + exists s'.
      assert (s' ∈ download_best_subtitles (offered w) (language_set st) (row_score row + 1))
        as Hin by (rewrite E; left).
      apply elem_of_download_best_subtitles in Hin as (? & ? & ?).
      split; [done|]. split; [lia|done].
  - intros s. unfold meets_min_score. lia.
  - intros s. unfold language_code, result_of, _get_download_code3,
      history_language_code. cbn.
    by destruct (custom_alpha3 t (language s)).
  - vm_compute. reflexivity.
  - vm_compute. reflexivity.
  - vm_compute. reflexivity.
Qed.

(** * Further properties *)

(** ** The gate *)

(** X1.  The gate blocks a search only in one situation: adaptive
    searching is enabled, the history has entries for the language whose
    earliest and latest timestamps the platform reads as local times, both
    windows are configured, and [now] lies at or after the local time of
    the earliest entry plus the delay window and before the local time of
    the latest entry plus the delta window. *)
Theorem is_search_active_false_only_in_window `{tz : localtime} cfg now lang
    (h : failedAttempts) :
  is_search_active cfg now lang h = Ok false →
  adaptive_searching cfg = true ∧
  ∃ initial latest i t delay_window delta_window,
    earliest lang (entries h) initial ∧ most_recent lang (entries h) latest ∧
    fromtimestamp initial.2 = Ok i ∧
    fromtimestamp latest.2 = Ok t ∧
    extended_search_window (adaptive_searching_delay cfg) = Ok (Some delay_window) ∧
    extended_search_window (adaptive_searching_delta cfg) = Ok (Some delta_window) ∧
    i + delay_window ≤ now < t + delta_window.
Proof.
  intros Hf.
  destruct (adaptive_searching cfg) eqn:Ha;
    [|by rewrite is_search_active_disabled in Hf].
  split; [done|].
  destruct (sorted Z.ltb snd (matching lang (entries h))) as [|i r] eqn:E.
  { apply sorted_nil_inv in E. by rewrite is_search_active_no_entry in Hf. }
  destruct h as [| |l]; [done|done|]. simpl in E.
  rewrite (is_search_active_entries _ _ _ _ _ _ Ha E) in Hf.
  pose proof (sorted_ts_head_min _ _ _ E) as Hi.
  pose proof (sorted_ts_last_max _ _ _ E) as Hl. rewrite E in Hl.
  destruct (fromtimestamp i.2) as [a|] eqn:Hfa; [|done].
  destruct (fromtimestamp (last_of i (i :: r)).2) as [b|] eqn:Hfb; [|done].
  cbn [mbind result_bind bind] in Hf.
  destruct (extended_search_window (adaptive_searching_delay cfg))
    as [[d|]|] eqn:Hd; [|done|done].
  cbn [mbind result_bind bind] in Hf.
  destruct (extended_search_window (adaptive_searching_delta cfg))
    as [[e|]|] eqn:He; [|done|done].
  cbn [mbind result_bind bind] in Hf.
  destruct (datetime_add a d) as [a'|] eqn:Ea; [|done].
  apply datetime_add_Ok in Ea as [-> _]. cbn [mbind result_bind bind] in Hf.
  destruct (now <? a + d) eqn:H1; [done|].
  destruct (datetime_add b e) as [b'|] eqn:Eb; [|done].
  apply datetime_add_Ok in Eb as [-> _]. cbn [mbind result_bind bind] in Hf.
  destruct (b + e <=? now) eqn:H2; [done|].
  apply Z.ltb_ge in H1. apply Z.leb_gt in H2.
  exists i, (last_of i (i :: r)), a, b, d, e.
  split; [exact Hi|]. split; [exact Hl|]. repeat split; try done; lia.
Qed.

Lemma is_search_active_Permutation `{tz : localtime} cfg now lang h h' :
  matching lang (entries h) ≡ₚ matching lang (entries h') →
  is_search_active cfg now lang h = is_search_active cfg now lang h'.
Proof.
  intros Hp.
  destruct (adaptive_searching cfg) eqn:Ha;
    [|by rewrite !is_search_active_disabled].
  destruct (sorted Z.ltb snd (matching lang (entries h))) as [|i r] eqn:E.
  { apply sorted_nil_inv in E. rewrite E in Hp.
    apply Permutation_nil_l in Hp. by rewrite !is_search_active_no_entry. }
  destruct (sorted Z.ltb snd (matching lang (entries h'))) as [|i' r'] eqn:E'.
  { apply sorted_nil_inv in E'. rewrite E' in Hp.
    apply Permutation_nil_r in Hp. by rewrite !is_search_active_no_entry. }
  destruct h as [| |l]; [done|done|]. destruct h' as [| |l']; [done|done|].
  simpl in *.
  rewrite (is_search_active_entries _ _ _ _ _ _ Ha E),
    (is_search_active_entries _ _ _ _ _ _ Ha E').
  pose proof (sorted_ts_head_min _ _ _ E) as [Hi Hmin].
  pose proof (sorted_ts_head_min _ _ _ E') as [Hi' Hmin'].
  pose proof (sorted_ts_last_max _ _ _ E) as [Hl Hmax]. rewrite E in Hl, Hmax.
  pose proof (sorted_ts_last_max _ _ _ E') as [Hl' Hmax']. rewrite E' in Hl', Hmax'.
  assert (i.2 = i'.2) as ->.
  { apply Z.le_antisymm; [apply Hmin; by rewrite Hp|apply Hmin'; by rewrite <- Hp]. }
  assert ((last_of i (i :: r)).2 = (last_of i' (i' :: r')).2) as ->.
  { apply Z.le_antisymm; [apply Hmax'; by rewrite <- Hp|apply Hmax; by rewrite Hp]. }
  done.
Qed.

(** X2.  The gate of a language reads the entries of that language only,
    and these as a collection: two histories whose entries for the language
    are the same up to order get the same answer.  So recording an attempt
    for another language never changes the answer. *)
Theorem is_search_active_other_language `{tz : localtime} cfg now now' lang other h h' :
  (matching lang (entries h) ≡ₚ matching lang (entries h') →
     is_search_active cfg now lang h = is_search_active cfg now lang h') ∧
  (other ≠ lang →
     is_search_active cfg now lang (updateFailedAttempts now' other h)
     = is_search_active cfg now lang h).
Proof.
  split; [apply is_search_active_Permutation|].
  intros Hne. apply is_search_active_Permutation.
  rewrite matching_updateFailedAttempts. by rewrite decide_False.
Qed.

(** ** The history across calls *)

Lemma earliest_is_sorted_head lang l m0 i r :
  earliest lang l m0 → sorted Z.ltb snd (matching lang l) = i :: r → i = m0.
Proof.
  intros He E. pose proof (earliest_sorted_head _ _ _ _ _ He E) as H2.
  apply sorted_ts_head_min in E as [Hi _].
  apply elem_of_matching in Hi as [Hi _]. destruct He as [He _].
  apply elem_of_matching in He as [He _].
  destruct i, m0. simpl in *. congruence.
Qed.

Lemma updateFailedAttempts_keeps_earliest `{tz : localtime} now lang h m0 :
  earliest lang (entries h) m0 → m0.2 ≤ timestamp now →
  matching lang (entries (updateFailedAttempts now lang h))
    = [m0; (lang, timestamp now)] ∧
  earliest lang (entries (updateFailedAttempts now lang h)) m0.
Proof.
  intros He Hle.
  assert (matching lang (entries (updateFailedAttempts now lang h))
          = [m0; (lang, timestamp now)]) as Hm.
  { rewrite matching_updateFailedAttempts_same.
    destruct (sorted Z.ltb snd (matching lang (entries h))) as [|i r] eqn:E.
    - apply sorted_nil_inv in E. destruct He as [He _]. rewrite E in He.
      by apply elem_of_nil in He.
    - by rewrite (earliest_is_sorted_head _ _ _ _ _ He E). }
  split; [done|]. unfold earliest. rewrite Hm. split; [left|].
  intros x Hx. elem_cases Hx; simpl; lia.
Qed.

Lemma updateFailedAttempts_first `{tz : localtime} now lang h :
  matching lang (entries h) = [] →
  matching lang (entries (updateFailedAttempts now lang h)) = [(lang, timestamp now)] ∧
  earliest lang (entries (updateFailedAttempts now lang h)) (lang, timestamp now).
Proof.
  intros Hnone.
  assert (matching lang (entries (updateFailedAttempts now lang h))
          = [(lang, timestamp now)])
    as Hm by (by rewrite matching_updateFailedAttempts_same, Hnone).
  split; [done|]. unfold earliest. rewrite Hm. split; [left|].
  intros x Hx. elem_cases Hx. simpl. lia.
Qed.

Lemma record_attempts_earliest `{tz : localtime} nows lang h m0 latest :
  earliest lang (entries h) m0 → Forall (λ n, m0.2 ≤ timestamp n) nows →
  last nows = Some latest →
  matching lang (entries (record_attempts nows lang h))
  = [m0; (lang, timestamp latest)].
Proof.
  revert h. induction nows as [|n rest IH]; intros h He Hall Hlast; [done|].
  apply Forall_cons in Hall as [Hn Hall].
  destruct (updateFailedAttempts_keeps_earliest n lang h m0 He Hn) as [Hm He'].
  destruct rest as [|n' rest'].
  - simpl in Hlast. injection Hlast as <-. exact Hm.
  - apply (IH _ He' Hall). exact Hlast.
Qed.

(** X3.  Whatever the number of attempts recorded for a language, the
    history keeps two entries for it: the earliest one, which never moves,
    and the one of the last attempt.  With an earliest entry [m0] in the
    history and attempts recorded at instants whose timestamps are not
    before it, the entries are [m0] and the last attempt; on a history
    without an entry for the language, they are the first and the last of
    the attempts, when no timestamp is before the one of the first. *)
Theorem record_attempts_keeps_first_and_last `{tz : localtime} nows lang h latest :
  last nows = Some latest →
  (∀ m0, earliest lang (entries h) m0 → Forall (λ n, m0.2 ≤ timestamp n) nows →
     matching lang (entries (record_attempts nows lang h))
     = [m0; (lang, timestamp latest)]) ∧
  (∀ first rest, matching lang (entries h) = [] → nows = first :: rest →
     rest ≠ [] → Forall (λ n, timestamp first ≤ timestamp n) rest →
     matching lang (entries (record_attempts nows lang h))
     = [(lang, timestamp first); (lang, timestamp latest)]).
Proof.
  intros Hlast. split.
  - intros m0 He Hall. by apply record_attempts_earliest.
  - intros first rest Hnone -> Hrest Hall.
    destruct (updateFailedAttempts_first first lang h Hnone) as [_ He].
    apply (record_attempts_earliest rest lang _ (lang, timestamp first) latest He Hall).
    destruct rest; [done|exact Hlast].
Qed.

Lemma length_sorted {A K} (ltb : K → K → bool) (key : A → K) (l : list A) :
  length (sorted ltb key l) = length l.
Proof. apply Permutation_length, sorted_Permutation. Qed.

Lemma length_matching_not_matching lang (l : list (string * Z)) :
  (length (matching lang l) + length (not_matching lang l) = length l)%nat.
Proof.
  unfold matching, not_matching.
  induction l as [|x r IH]; [done|].
  rewrite !filter_cons. destruct (decide (x.1 = lang)) as [Hx|Hx].
  - rewrite decide_False by (intros H; by apply H). simpl. lia.
  - rewrite decide_True by done. simpl. lia.
Qed.

(** X4.  A call of [updateFailedAttempts] adds at most one entry to the
    history, whatever the history was, and leaves one or two entries for
    the language; on a history that already has two or more entries for
    the language the history does not grow. *)
Theorem updateFailedAttempts_growth `{tz : localtime} now lang h :
  (length (entries (updateFailedAttempts now lang h)) ≤ length (entries h) + 1)%nat ∧
  (1 ≤ length (matching lang (entries (updateFailedAttempts now lang h))) ≤ 2)%nat ∧
  ((2 ≤ length (matching lang (entries h)))%nat →
     (length (entries (updateFailedAttempts now lang h)) ≤ length (entries h))%nat).
Proof.
  pose proof (length_matching_not_matching lang (entries h)) as Hsplit.
  pose proof (length_sorted Z.ltb snd (matching lang (entries h))) as Hm.
  rewrite matching_updateFailedAttempts_same, updateFailedAttempts_eq. simpl.
  rewrite length_sorted, !length_app, length_sorted. simpl.
  destruct (sorted Z.ltb snd (matching lang (entries h))) as [|i r];
    simpl in *; lia.
Qed.

(** ** The windows *)

Lemma digit_of_ascii_bound c n : digit_of_ascii c = Some n → 0 ≤ n ≤ 9.
Proof.
  unfold digit_of_ascii. intros H.
  destruct (48 <=? Z.of_nat (nat_of_ascii c)) eqn:H1; [|done].
  destruct (Z.of_nat (nat_of_ascii c) <=? 57) eqn:H2; [|done].
  simpl in H. injection H as <-.
  apply Z.leb_le in H1. apply Z.leb_le in H2. lia.
Qed.

Lemma int_first1_bound s n : int (first1 s) = Ok n → 0 ≤ n ≤ 9.
Proof.
  destruct s as [|c s]; [done|].
  change (first1 (String c s)) with (String c ""). rewrite int_char.
  destruct (digit_of_ascii c) as [d|] eqn:Hd; [|done].
  intros [= <-]. apply digit_of_ascii_bound in Hd. lia.
Qed.

(** X5.  Whatever the text of the setting, a window that
    [is_search_active] computes is never negative and never longer than
    nine weeks; a window given in days is at most nine days. *)
Theorem extended_search_window_bound setting window :
  extended_search_window setting = Ok (Some window) →
  0 ≤ window ≤ timedelta_weeks 9 ∧
  (endswith setting "d" = true → window ≤ timedelta_days 9).
Proof.
  unfold extended_search_window, timedelta_weeks, timedelta_days, microsecond_per_day.
  destruct (endswith setting "d").
  - destruct (int (first1 setting)) as [n|] eqn:Hn; [|done].
    apply int_first1_bound in Hn. intros [= <-]. lia.
  - destruct (endswith setting "w"); [|done].
    destruct (int (first1 setting)) as [n|] eqn:Hn; [|done].
    apply int_first1_bound in Hn. intros [= <-]. split; [lia|done].
Qed.

(** ** The wanted flow *)

Lemma searched_tokens_cons `{tz : localtime} cfg now language rest confirmed fetched :
  searched_tokens cfg now (language :: rest) confirmed fetched =
    if decide (language ∈ confirmed ∧ is_search_active cfg now language fetched = Ok true)
    then language :: searched_tokens cfg now rest confirmed fetched
    else searched_tokens cfg now rest confirmed fetched.
Proof. unfold searched_tokens. by rewrite filter_cons. Qed.

Lemma _wanted_languages_closed `{tz : localtime} cfg now missing confirmed
    (fetched : failedAttempts) column :
  (∀ L, L ∈ missing → L ∈ confirmed → ∃ b, is_search_active cfg now L fetched = Ok b) →
  _wanted_languages cfg now missing confirmed fetched column =
    Ok (language_tuple <$> searched_tokens cfg now missing confirmed fetched,
        match last (searched_tokens cfg now missing confirmed fetched) with
        | Some L => updateFailedAttempts now L fetched
        | None => column
        end).
Proof.
  revert column. induction missing as [|language rest IH]; intros column Hgate; [done|].
  assert (∀ L, L ∈ rest → L ∈ confirmed →
               ∃ b, is_search_active cfg now L fetched = Ok b) as Hrest.
  { intros L HL. apply Hgate. by right. }
  cbn [_wanted_languages]. rewrite searched_tokens_cons.
  destruct (decide (language ∈ confirmed)) as [Hc|Hc].
  - rewrite (bool_decide_eq_true_2 _ Hc).
    destruct (Hgate language (list_elem_of_here _ _) Hc) as [b Hb]. rewrite Hb.
    cbn [mbind result_bind bind]. destruct b.
    + rewrite decide_True by done. rewrite (IH _ Hrest).
      cbn [mbind result_bind bind]. rewrite fmap_cons, last_cons.
      by destruct (last (searched_tokens cfg now rest confirmed fetched)).
    + rewrite decide_False by (intros [_ ?]; done). by apply IH.
  - rewrite (bool_decide_eq_false_2 _ Hc).
    rewrite decide_False by (intros [? _]; done). by apply IH.
Qed.

(** X6.  In [_wanted_movie] (and [_wanted_episode]) the languages searched
    are those of the tokens still missing and due, in order.  Every write
    to the column [failedAttempts] is computed from the row as it was
    fetched, so the column ends as the fetched history with the attempt of
    the last searched token only: the entries of every other language,
    searched or not, are the fetched ones. *)
Theorem _wanted_languages_last_write `{tz : localtime} cfg now missing confirmed
    (fetched : failedAttempts) :
  (∀ L, L ∈ missing → L ∈ confirmed → ∃ b, is_search_active cfg now L fetched = Ok b) →
  ∃ column,
    _wanted_languages cfg now missing confirmed fetched fetched =
      Ok (language_tuple <$> searched_tokens cfg now missing confirmed fetched, column) ∧
    (∀ L, L ∈ searched_tokens cfg now missing confirmed fetched ↔
          L ∈ missing ∧ L ∈ confirmed ∧ is_search_active cfg now L fetched = Ok true) ∧
    (∀ L, last (searched_tokens cfg now missing confirmed fetched) = Some L →
          column = updateFailedAttempts now L fetched) ∧
    (∀ L, last (searched_tokens cfg now missing confirmed fetched) ≠ Some L →
          matching L (entries column) ≡ₚ matching L (entries fetched)).
Proof.
  intros Hgate. eexists. split; [by apply _wanted_languages_closed|].
  split.
  { intros L. unfold searched_tokens. rewrite list_elem_of_filter.
    split; [intros [[? ?] ?]|intros (? & ? & ?)]; auto. }
  destruct (last (searched_tokens cfg now missing confirmed fetched)) as [L'|].
  - split; [by intros L [= ->]|]. intros L HL.
    rewrite matching_updateFailedAttempts. rewrite decide_False; [done|].
    intros ->. done.
  - split; [done|]. done.
Qed.

(** ** Language tokens *)

Lemma string_app_cons x (a b : string) : String x a +:+ b = String x (a +:+ b).
Proof. reflexivity. Qed.

Lemma string_app_assoc (a b c : string) : (a +:+ b) +:+ c = a +:+ (b +:+ c).
Proof.
  induction a as [|x a IH]; [done|]. rewrite !string_app_cons. by rewrite IH.
Qed.

Lemma endswith_refl s : endswith s s = true.
Proof. destruct s; simpl; [done|]. by rewrite Ascii.eqb_refl, String.eqb_refl. Qed.

Lemma endswith_app p suffix : endswith (p +:+ suffix) suffix = true.
Proof.
  induction p as [|c p IH]; [apply endswith_refl|].
  rewrite string_app_cons. cbn [endswith]. rewrite IH. apply orb_true_r.
Qed.

Lemma endswith_inv s suffix : endswith s suffix = true → ∃ p, s = p +:+ suffix.
Proof.
  induction s as [|c s IH]; cbn [endswith]; intros H.
  - apply orb_true_iff in H as [H|H]; [|done].
    apply String.eqb_eq in H as <-. by exists "".
  - apply orb_true_iff in H as [H|H].
    + apply String.eqb_eq in H as <-. by exists "".
    + destruct (IH H) as [p ->]. by exists (String c p).
Qed.

Lemma last_char_app p s : s ≠ "" → last_char (p +:+ s) = last_char s.
Proof.
  intros Hs. induction p as [|c p IH]; [done|].
  rewrite string_app_cons. cbn [last_char]. rewrite IH.
  destruct (p +:+ s) eqn:E; [|done].
  destruct p; [done|]. rewrite string_app_cons in E. discriminate E.
Qed.

Lemma endswith_last_char s suffix :
  suffix ≠ "" → endswith s suffix = true → last_char s = last_char suffix.
Proof.
  intros Hs H. apply endswith_inv in H as [p ->]. by apply last_char_app.
Qed.

Lemma has_colon_app a b : has_colon (a +:+ b) = has_colon a || has_colon b.
Proof.
  induction a as [|c a IH]; [done|].
  rewrite string_app_cons. cbn [has_colon]. by rewrite IH, orb_assoc.
Qed.

Lemma endswith_colon_has_colon s rest :
  endswith s (String ":" rest) = true → has_colon s = true.
Proof.
  intros H. apply endswith_inv in H as [p ->].
  rewrite has_colon_app. cbn [has_colon]. rewrite Ascii.eqb_refl. apply orb_true_r.
Qed.

Lemma split_colon_0_app base rest :
  has_colon base = false → split_colon_0 (base +:+ String ":" rest) = base.
Proof.
  induction base as [|c base IH]; [done|].
  rewrite string_app_cons. cbn [has_colon split_colon_0].
  intros H. apply orb_false_iff in H as [Hc Hb]. rewrite Hc. by rewrite IH.
Qed.

Lemma split_colon_0_plain base : has_colon base = false → split_colon_0 base = base.
Proof.
  induction base as [|c base IH]; simpl; [done|].
  intros H. apply orb_false_iff in H as [Hc Hb]. rewrite Hc. by rewrite IH.
Qed.

Lemma endswith_false_by_last_char s suffix :
  suffix ≠ "" → last_char s ≠ last_char suffix → endswith s suffix = false.
Proof.
  intros Hs Hne. destruct (endswith s suffix) eqn:E; [|done].
  by apply endswith_last_char in E.
Qed.

Lemma language_tuple_plain base :
  has_colon base = false → language_tuple base = (base, "False", "False").
Proof.
  intros Hb. unfold language_tuple. rewrite (split_colon_0_plain _ Hb).
  destruct (endswith base ":hi") eqn:E1.
  { apply endswith_colon_has_colon in E1. congruence. }
  destruct (endswith base ":forced") eqn:E2; [|done].
  apply endswith_colon_has_colon in E2. congruence.
Qed.

Lemma language_tuple_hi base :
  has_colon base = false → language_tuple (base +:+ ":hi") = (base, "True", "False").
Proof.
  intros Hb. unfold language_tuple.
  rewrite (split_colon_0_app _ "hi" Hb), endswith_app.
  rewrite (endswith_false_by_last_char (base +:+ ":hi") ":forced"); [done|done|].
  by rewrite last_char_app.
Qed.

Lemma language_tuple_forced base :
  has_colon base = false →
  language_tuple (base +:+ ":forced") = (base, "False", "True").
Proof.
  intros Hb. unfold language_tuple.
  rewrite (split_colon_0_app _ "forced" Hb), endswith_app.
  rewrite (endswith_false_by_last_char (base +:+ ":forced") ":hi"); [done|done|].
  by rewrite last_char_app.
Qed.

(** X7.  Tokens and history codes are inverse to each other.  For a
    language code without a colon, the token [code], [code:hi] or
    [code:forced] is read by the wanted flow as the code with the matching
    pair of modifiers, and the language code written to the history for a
    result with that code and these modifiers is the token again. *)
Theorem language_token_round_trip base :
  has_colon base = false →
  (language_tuple base = (base, "False", "False") ∧
   history_language_code base false false = base) ∧
  (language_tuple (base +:+ ":hi") = (base, "True", "False") ∧
   history_language_code base false true = base +:+ ":hi") ∧
  (language_tuple (base +:+ ":forced") = (base, "False", "True") ∧
   history_language_code base true false = base +:+ ":forced").
Proof.
  intros Hb. repeat split.
  - by apply language_tuple_plain.
  - by apply language_tuple_hi.
  - by apply language_tuple_forced.
Qed.

(** X8.  The upgrade flow reads the modifiers of a history language from
    the end of the text without the colon.  On [code:hi] and [code:forced]
    it agrees with the wanted flow; on a bare code it agrees exactly when
    the code ends in neither [hi] nor [forced], and a bare code that ends
    in [hi] is searched as hearing-impaired. *)
Theorem upgrade_language_tuple_reads_suffix base :
  has_colon base = false →
  upgrade_language_tuple (base +:+ ":hi") = language_tuple (base +:+ ":hi") ∧
  upgrade_language_tuple (base +:+ ":forced") = language_tuple (base +:+ ":forced") ∧
  (upgrade_language_tuple base = language_tuple base ↔
     endswith base "forced" = false ∧ endswith base "hi" = false) ∧
  (endswith base "forced" = false → endswith base "hi" = true →
     upgrade_language_tuple base = (base, "True", "False")).
Proof.
  intros Hb. split; [|split; [|split]].
  - rewrite (language_tuple_hi _ Hb). unfold upgrade_language_tuple.
    rewrite (split_colon_0_app _ "hi" Hb).
    rewrite (endswith_false_by_last_char (base +:+ ":hi") "forced");
      [|done|by rewrite last_char_app].
    change ":hi" with (":" +:+ "hi"). rewrite <- string_app_assoc.
    by rewrite endswith_app.
  - rewrite (language_tuple_forced _ Hb). unfold upgrade_language_tuple.
    rewrite (split_colon_0_app _ "forced" Hb).
    change ":forced" with (":" +:+ "forced"). rewrite <- string_app_assoc.
    by rewrite endswith_app.
  - rewrite (language_tuple_plain _ Hb). unfold upgrade_language_tuple.
    rewrite (split_colon_0_plain _ Hb).
    destruct (endswith base "forced"), (endswith base "hi");
      (split; [intros H|intros [H1 H2]]); try discriminate; auto.
  - intros Hf Hh. unfold upgrade_language_tuple.
    by rewrite (split_colon_0_plain _ Hb), Hf, Hh.
Qed.

(** ** The result of a manual search *)

Lemma score_key_gtb_asym a b : score_key_gtb a b = true → score_key_gtb b a = false.
Proof.
  unfold score_key_gtb.
  rewrite orb_true_iff, andb_true_iff, orb_false_iff, andb_false_iff.
  rewrite !Z.ltb_lt, !Z.ltb_ge, Z.eqb_eq, Z.eqb_neq. lia.
Qed.

Lemma score_key_le_ge x y :
  key_le score_key_gtb score_key x y → score_key_ge x y.
Proof.
  unfold key_le, score_key_gtb, score_key_ge, score_key. simpl.
  rewrite orb_false_iff, andb_false_iff, !Z.ltb_ge, Z.eqb_neq. lia.
Qed.

(** X9.  When [manual_search] has providers, a resolved video and a
    listing that does not fail, it returns exactly the offered candidates
    that reach scoring, each as often as it was offered, ordered by
    [(orig_score, score_without_hash)] from the largest down. *)
Theorem manual_search_result t w cfg language_items providers media_type floor :
  providers ≠ [] → get_video w = true → listing_raises w = false →
  _get_scores t media_type (minimum_score_movie cfg) (minimum_score cfg) = Ok floor →
  ∃ found trace,
    manual_search t w cfg language_items providers media_type = Ok (Some found, trace) ∧
    found ≡ₚ filter (λ s, candidate_fate_of media_type s = Scored) (offered w) ∧
    (∀ s, s ∈ found ↔ s ∈ offered w ∧ candidate_fate_of media_type s = Scored) ∧
    Sorted score_key_ge found.
Proof.
  intros Hp Hv Hl Hfloor. unfold manual_search.
  rewrite (bool_decide_eq_true_2 _ Hp), Hv, Hfloor, Hl.
  destruct floor as [[m mx] sc]. cbn [mbind result_bind bind].
  eexists _, _. split; [reflexivity|].
  split; [apply sorted_Permutation|]. split.
  - intros s. rewrite elem_of_sorted, list_elem_of_filter. split; intros [? ?]; done.
  - eapply Sorted_weaken; [apply score_key_le_ge|].
    apply sorted_Sorted, score_key_gtb_asym.
Qed.

(** ** The batch flows *)

Lemma series_download_loop_throttled t cfg id count i eps1 e eps2 gp :
  (∀ j, (j < length eps1)%nat → gp (i + j)%nat ≠ []) →
  gp (i + length eps1)%nat = [] →
  series_download_loop t cfg id count i (eps1 ++ e :: eps2) gp =
    (tr ← series_download_loop t cfg id count i eps1 gp;
     Ok (tr ++ [Info throttled_msg])).
Proof.
  revert i. induction eps1 as [|x xs IH]; intros i Havail Hthrottled.
  - simpl in *. rewrite Nat.add_0_r in Hthrottled.
    by rewrite bool_decide_eq_false_2 by (by intros ?).
  - assert (gp i ≠ []) as H0.
    { specialize (Havail 0%nat). rewrite Nat.add_0_r in Havail.
      apply Havail. simpl. lia. }
    assert (series_download_loop t cfg id count (S i) (xs ++ e :: eps2) gp =
            (tr ← series_download_loop t cfg id count (S i) xs gp;
             Ok (tr ++ [Info throttled_msg]))) as Hrec.
    { apply IH.
      - intros j Hj. replace (S i + j)%nat with (i + S j)%nat by lia.
        apply Havail. simpl. lia.
      - replace (S i + length xs)%nat with (i + length (x :: xs))%nat by (simpl; lia).
        done. }
    cbn [app series_download_loop]. rewrite (bool_decide_eq_true_2 _ H0), Hrec.
    destruct (bool_decide (confirmed_languages _ _ = [])).
    + by destruct (series_download_loop t cfg id count (S i) xs gp).
    + destruct (generate_subtitles _ _ _ _ _ _ _) as [[results trace]|]; [|done].
      cbn [mbind result_bind bind].
      destruct (series_download_loop t cfg id count (S i) xs gp); [|done].
      cbn [mbind result_bind bind]. by rewrite !app_comm_cons, <- !app_assoc.
Qed.

(** X10.  [series_download_subtitles] stops at the first episode for which
    no provider is left: it logs that all providers are throttled, that
    episode and the following ones are not searched, and the progress bar
    is hidden.  Whenever it returns for a series with episodes, hiding the
    progress bar is the last thing it did. *)
Theorem series_download_subtitles_throttled t cfg no gp :
  let id := "series_search_progress_" +:+ pretty no in
  (∀ eps1 e eps2,
     (∀ j, (j < length eps1)%nat → gp j ≠ []) → gp (length eps1) = [] →
     series_download_subtitles t cfg no (eps1 ++ e :: eps2) gp =
       (tr ← series_download_loop t cfg id (length (eps1 ++ e :: eps2)) 0 eps1 gp;
        Ok (tr ++ [Info throttled_msg; HideProgress id]))) ∧
  (∀ episodes_details tr,
     episodes_details ≠ [] →
     series_download_subtitles t cfg no episodes_details gp = Ok tr →
     last tr = Some (HideProgress id)).
Proof.
  intros id. split.
  - intros eps1 e eps2 Havail Hthrottled. unfold series_download_subtitles.
    rewrite bool_decide_eq_false_2 by (by destruct eps1).
    fold id. rewrite series_download_loop_throttled; [|done|done].
    destruct (series_download_loop t cfg id _ 0 eps1 gp); [|done].
    cbn [mbind result_bind bind]. by rewrite <- app_assoc.
  - intros eps tr Hne. unfold series_download_subtitles.
    rewrite (bool_decide_eq_false_2 _ Hne). fold id.
    destruct (series_download_loop t cfg id _ 0 eps gp); [|done].
    cbn [mbind result_bind bind]. intros [= <-]. apply last_snoc.
Qed.

Lemma wanted_search_loop_throttled id count i eps1 e eps2 gp wd :
  (∀ j, (j < length eps1)%nat → gp (i + j)%nat ≠ []) →
  gp (i + length eps1)%nat = [] →
  wanted_search_loop id count i (eps1 ++ e :: eps2) gp wd =
    ('(tr, _) ← wanted_search_loop id count i eps1 gp wd;
     Ok (tr ++ [ShowProgress id (i + length eps1) count; Info throttled_msg], false)).
Proof.
  revert i. induction eps1 as [|x xs IH]; intros i Havail Hthrottled.
  - simpl in *. rewrite Nat.add_0_r in *.
    by rewrite bool_decide_eq_false_2 by (by intros ?).
  - assert (gp i ≠ []) as H0.
    { specialize (Havail 0%nat). rewrite Nat.add_0_r in Havail.
      apply Havail. simpl. lia. }
    assert (wanted_search_loop id count (S i) (xs ++ e :: eps2) gp wd =
            ('(tr, _) ← wanted_search_loop id count (S i) xs gp wd;
             Ok (tr ++ [ShowProgress id (S i + length xs) count; Info throttled_msg],
                 false))) as Hrec.
    { apply IH.
      - intros j Hj. replace (S i + j)%nat with (i + S j)%nat by lia.
        apply Havail. simpl. lia.
      - replace (S i + length xs)%nat with (i + length (x :: xs))%nat by (simpl; lia).
        done. }
    cbn [app wanted_search_loop]. rewrite (bool_decide_eq_true_2 _ H0), Hrec.
    destruct (wd x) as [evs|]; [|done]. cbn [mbind result_bind bind].
    destruct (wanted_search_loop id count (S i) xs gp wd) as [[tr f]|]; [|done].
    cbn [mbind result_bind bind].
    replace (i + length (x :: xs))%nat with (S i + length xs)%nat by (simpl; lia).
    by rewrite !app_comm_cons, <- !app_assoc.
Qed.

Lemma wanted_search_loop_no_hide id count i items gp wd tr finished id' :
  wanted_search_loop id count i items gp wd = Ok (tr, finished) →
  HideProgress id' ∉ tr.
Proof.
  revert i tr finished. induction items as [|x xs IH]; intros i tr finished.
  - intros [= <- <-]. apply not_elem_of_nil.
  - cbn [wanted_search_loop]. destruct (bool_decide (gp i ≠ [])).
    + destruct (wd x) as [evs|]; [|done]. cbn [mbind result_bind bind].
      destruct (wanted_search_loop id count (S i) xs gp wd) as [[tr' f]|] eqn:E; [|done].
      cbn [mbind result_bind bind]. intros [= <- <-].
      rewrite not_elem_of_cons, not_elem_of_app. split; [done|]. split.
      * rewrite list_elem_of_fmap. by intros (? & ? & ?).
      * by eapply IH.
    + intros [= <- <-]. rewrite !not_elem_of_cons. repeat split; try done.
      apply not_elem_of_nil.
Qed.

(** X11.  [wanted_search_missing_subtitles_series] returns at the first
    episode for which no provider is left: the bar of that episode was
    shown, the throttling is logged, that episode and the following ones
    are not handed to [wanted_download_subtitles], and the progress bar is
    not hidden. *)
Theorem wanted_search_missing_subtitles_series_throttled eps1 e eps2 gp wd :
  (∀ j, (j < length eps1)%nat → gp j ≠ []) → gp (length eps1) = [] →
  let id := "wanted_episodes_progress" in
  wanted_search_missing_subtitles_series (eps1 ++ e :: eps2) gp wd =
    ('(tr, _) ← wanted_search_loop id (length (eps1 ++ e :: eps2)) 0 eps1 gp wd;
     Ok (tr ++ [ShowProgress id (length eps1) (length (eps1 ++ e :: eps2));
                Info throttled_msg])) ∧
  (∀ tr, wanted_search_missing_subtitles_series (eps1 ++ e :: eps2) gp wd = Ok tr →
         HideProgress id ∉ tr).
Proof.
  intros Havail Hthrottled id.
  assert (wanted_search_missing_subtitles_series (eps1 ++ e :: eps2) gp wd =
    ('(tr, _) ← wanted_search_loop id (length (eps1 ++ e :: eps2)) 0 eps1 gp wd;
     Ok (tr ++ [ShowProgress id (length eps1) (length (eps1 ++ e :: eps2));
                Info throttled_msg]))) as Heq.
  { unfold wanted_search_missing_subtitles_series. fold id.
    rewrite wanted_search_loop_throttled; [|done|done].
    by destruct (wanted_search_loop id _ 0 eps1 gp wd) as [[tr f]|]. }
  split; [exact Heq|]. intros tr. rewrite Heq.
  destruct (wanted_search_loop id _ 0 eps1 gp wd) as [[tr' f]|] eqn:E; [|done].
  cbn [mbind result_bind bind]. intros [= <-].
  rewrite not_elem_of_app, !not_elem_of_cons. split.
  - by eapply wanted_search_loop_no_hide.
  - repeat split; try done. apply not_elem_of_nil.
Qed.

Lemma movies_loop_closed id count confirmed gp st i missing :
  let st' := movies_loop id count confirmed gp st i missing in
  movie_languages st' = movie_languages st ++ (language_tuple <$> missing) ∧
  movie_providers_list st' =
    match missing with
    | [] => movie_providers_list st
    | _ => Some (gp (i + length missing - 1)%nat)
    end ∧
  (Forall (λ e, is_show e = true) (movie_shown st) →
   Forall (λ e, is_show e = true) (movie_shown st')).
Proof.
  revert st i. induction missing as [|language rest IH]; intros st i; simpl.
  - by rewrite app_nil_r.
  - destruct (IH (movies_loop_body id count confirmed gp st i language) (S i))
      as (Hl & Hp & Hs).
    split; [|split].
    + rewrite Hl. simpl. by rewrite <- app_assoc.
    + rewrite Hp. destruct rest as [|y ys]; simpl; f_equal; f_equal; lia.
    + intros Hshown. apply Hs. simpl.
      destruct (bool_decide (gp i ≠ []) && bool_decide (language ∈ confirmed));
        [|done].
      apply Forall_app. split; [done|]. by repeat constructor.
Qed.

(** X12.  [movies_download_subtitles] searches every token of
    [missing_subtitles], whether or not it is still in the column when it
    is read again: that reading decides on the progress bar only.  The
    search is run when the provider list read for the last token is not
    empty; with no token at all the function logs that all providers are
    throttled.  The progress bar is hidden in both cases. *)
Theorem movies_download_subtitles_searches_all t w cfg no missing confirmed gp :
  let id := "movie_search_progress_" +:+ pretty no in
  ∃ shown,
    Forall (λ e, is_show e = true) shown ∧
    movies_download_subtitles t w cfg no missing confirmed gp =
      if bool_decide (missing ≠ []) && bool_decide (gp (length missing - 1)%nat ≠ [])
      then
        '(results, trace) ←
          generate_subtitles t w cfg (language_tuple <$> missing) "movie" None false;
        Ok (shown ++ (Flow <$> trace) ++ (Flow <$> history_events 1 results)
            ++ [HideProgress id])
      else Ok (shown ++ [Info throttled_msg; HideProgress id]).
Proof.
  intros id. unfold movies_download_subtitles. fold id.
  destruct (movies_loop_closed id (length missing) confirmed gp
              {| movie_languages := []; movie_providers_list := None; movie_shown := [] |}
              0 missing) as (Hl & Hp & Hs).
  simpl in Hl, Hp, Hs. eexists. split; [apply Hs; constructor|].
  rewrite Hl, Hp. destruct missing as [|x xs]; [done|].
  rewrite (bool_decide_eq_true_2 (x :: xs ≠ [])) by done.
  destruct (gp (length (x :: xs) - 1)%nat) as [|p ps] eqn:E.
  - by rewrite bool_decide_eq_false_2 by (by intros ?).
  - by rewrite bool_decide_eq_true_2 by done.
Qed.

(** ** The rows to upgrade *)

(** X13.  A row of the history is upgraded when it is recent enough, its
    subtitles file exists and its score is below the near-perfect mark (357
    for an episode, 117 for a movie), and then only.  The test on manually
    downloaded subtitles of the first pass has no effect on the selection:
    with or without [upgrade_manual], the same rows of a query result are
    selected. *)
Theorem to_upgrade_selection near_perfect perfect minimum_timestamp upgrade_manual rows :
  near_perfect ≤ perfect →
  to_upgrade near_perfect
    (upgradable_not_perfect perfect minimum_timestamp upgrade_manual rows)
  = filter (λ r, minimum_timestamp < upgradable_timestamp r ∧
                 is_to_upgrade near_perfect r) rows ∧
  (∀ r, r ∈ to_upgrade near_perfect
              (upgradable_not_perfect perfect minimum_timestamp upgrade_manual rows) →
        ∃ s, upgradable_score r = Some s ∧ s < near_perfect) ∧
  to_upgrade near_perfect (upgradable_not_perfect perfect minimum_timestamp true rows)
  = to_upgrade near_perfect (upgradable_not_perfect perfect minimum_timestamp false rows).
Proof.
  intros Hle.
  assert (∀ manual,
    to_upgrade near_perfect (upgradable_not_perfect perfect minimum_timestamp manual rows)
    = filter (λ r, minimum_timestamp < upgradable_timestamp r ∧
                   is_to_upgrade near_perfect r) rows) as Heq.
  { intros manual. unfold to_upgrade, upgradable_not_perfect.
    rewrite list_filter_filter. apply list_filter_iff. intros r.
    unfold is_to_upgrade, is_not_perfect.
    destruct (upgradable_score r) as [s|]; [|tauto].
    split; [tauto|]. intros (? & ? & ?). repeat split; try done. left. lia. }
  split; [apply Heq|]. split; [|by rewrite !Heq].
  intros r. rewrite Heq, list_elem_of_filter. unfold is_to_upgrade.
  intros [(_ & _ & Hs) _]. destruct (upgradable_score r) as [s|]; [|done]. eauto.
Qed.

(** ** The provider pools *)

Section pools.
Context {pool : Type} (c : pool_class pool).
Implicit Types (_pools : gmap string (option pool)).

Lemma count_init_app k (e1 e2 : list pool_event) :
  count_init k (e1 ++ e2) = (count_init k e1 + count_init k e2)%nat.
Proof. unfold count_init. by rewrite filter_app, length_app. Qed.

Lemma count_init_update k key : count_init k [UpdatePool key] = 0%nat.
Proof. unfold count_init. by rewrite filter_cons, decide_False. Qed.

Lemma count_init_init k key :
  count_init k [InitPool key] = if bool_decide (k = key) then 1%nat else 0%nat.
Proof.
  unfold count_init. rewrite filter_cons, filter_nil.
  destruct (decide (k = key)) as [->|Hne].
  - by rewrite decide_True, bool_decide_eq_true_2.
  - rewrite decide_False by congruence. by rewrite bool_decide_eq_false_2.
Qed.

Lemma _update_pool_spec _pools media_type profile_id :
  let key := pool_key media_type profile_id in
  let '(_pools', _, events) := _update_pool c _pools media_type profile_id in
  is_Some (_pools' !! key) ∧
  (∀ k, k ≠ key → _pools' !! k = _pools !! k) ∧
  (∀ k, is_Some (_pools !! k) → is_Some (_pools' !! k)) ∧
  (∀ k, count_init k events =
        if bool_decide (k = key ∧ _pools !! key = None) then 1%nat else 0%nat).
Proof.
  intros key. unfold _update_pool. fold key.
  assert (∀ (m : gmap string (option pool)) v k,
            is_Some (m !! k) → is_Some (<[key := v]> m !! k)) as Hins.
  { intros m v k Hk. destruct (decide (k = key)) as [->|Hne];
      [by rewrite lookup_insert_eq|by rewrite lookup_insert_ne]. }
  destruct (_pools !! key) as [o|] eqn:E.
  - assert (∀ k, bool_decide (k = key ∧ Some o = None) = false) as Hb.
    { intros k. by rewrite bool_decide_eq_false_2 by (by intros [_ ?]). }
    rewrite E. destruct o as [p|].
    + destruct (pool_update c p media_type profile_id) as [p' changed].
      split; [by rewrite lookup_insert_eq|].
      split; [intros k Hk; by rewrite lookup_insert_ne|].
      split; [intros k; apply Hins|].
      intros k. by rewrite Hb, count_init_app, count_init_update.
    + split; [by rewrite E|]. split; [done|]. split; [done|].
      intros k. by rewrite Hb.
  - assert (∀ k, bool_decide (k = key ∧ @None (option pool) = None)
                 = bool_decide (k = key)) as Hb.
    { intros k. apply bool_decide_ext. split; [by intros [? _]|by intros ->]. }
    rewrite lookup_insert_eq.
    destruct (init_pool c media_type profile_id) as [p|].
    + destruct (pool_update c p media_type profile_id) as [p' changed].
      split; [by rewrite lookup_insert_eq|].
      split; [intros k Hk; by rewrite !lookup_insert_ne|].
      split; [intros k Hk; by apply Hins, Hins|].
      intros k. rewrite Hb, count_init_app, count_init_update, count_init_init. lia.
    + split; [by rewrite lookup_insert_eq|].
      split; [intros k Hk; by rewrite lookup_insert_ne|].
      split; [intros k; apply Hins|].
      intros k. by rewrite Hb, count_init_init.
Qed.

Lemma _get_pool_spec _pools media_type profile_id :
  let key := pool_key media_type profile_id in
  ∃ _pools' p events,
    _get_pool c _pools media_type profile_id = Some (_pools', p, events) ∧
    _pools' !! key = Some p ∧
    (∀ k, k ≠ key → _pools' !! k = _pools !! k) ∧
    (∀ k, is_Some (_pools !! k) → is_Some (_pools' !! k)) ∧
    (∀ k, count_init k events =
          if bool_decide (k = key ∧ _pools !! key = None) then 1%nat else 0%nat) ∧
    (is_Some (_pools !! key) → _pools' = _pools ∧ events = []).
Proof.
  intros key. unfold _get_pool. fold key.
  destruct (_pools !! key) as [o|] eqn:E.
  - exists _pools, o, []. repeat split; try done.
    intros k. by rewrite bool_decide_eq_false_2 by (by intros [_ ?]).
  - pose proof (_update_pool_spec _pools media_type profile_id) as Hu.
    fold key in Hu. cbv zeta in Hu.
    destruct (_update_pool c _pools media_type profile_id) as [[_pools' b] events].
    destruct Hu as ([p Hp] & Hother & Hkeep & Hcount).
    rewrite Hp. simpl. exists _pools', p, events.
    split; [done|]. split; [done|]. split; [done|]. split; [done|]. split.
    + intros k. rewrite Hcount. by rewrite E.
    + by intros [? ?].
Qed.

(** X14.  [_get_pool] never fails with [KeyError]: it returns the pool
    stored under the key, building it first when the key is new, and
    leaves every other key alone.  For a key that is cached it returns the
    cached pool as it is and builds or refreshes nothing. *)
Theorem _get_pool_cached _pools media_type profile_id :
  let key := pool_key media_type profile_id in
  ∃ _pools' p events,
    _get_pool c _pools media_type profile_id = Some (_pools', p, events) ∧
    _pools' !! key = Some p ∧
    (∀ k, k ≠ key → _pools' !! k = _pools !! k) ∧
    (∀ cached, _pools !! key = Some cached →
       _pools' = _pools ∧ p = cached ∧ events = []) ∧
    (_pools !! key = None → ∃ rest, events = InitPool key :: rest).
Proof.
  intros key.
  destruct (_get_pool_spec _pools media_type profile_id)
    as (_pools' & p & events & Hget & Hp & Hother & _ & _ & Hcached).
  fold key in Hp, Hother, Hcached.
  exists _pools', p, events. split; [done|]. split; [done|]. split; [done|]. split.
  - intros cached Hc. destruct Hcached as [-> ->]; [by rewrite Hc|].
    repeat split. rewrite Hc in Hp. by injection Hp.
  - intros Hnone. unfold _get_pool in Hget. fold key in Hget. rewrite Hnone in Hget.
    unfold _update_pool in Hget. fold key in Hget. rewrite Hnone in Hget.
    rewrite lookup_insert_eq in Hget.
    destruct (init_pool c media_type profile_id) as [q|].
    + destruct (pool_update c q media_type profile_id) as [q' ch].
      rewrite lookup_insert_eq in Hget. simpl in Hget. injection Hget as <- <- <-.
      eauto.
    + rewrite lookup_insert_eq in Hget. simpl in Hget. injection Hget as <- <- <-.
      eauto.
Qed.

Lemma run_pool_call_spec st call :
  let st' := run_pool_call c st call in
  (∀ k, is_Some (st.1 !! k) → is_Some (st'.1 !! k)) ∧
  (∀ k, ∃ n, count_init k st'.2 = (count_init k st.2 + n)%nat ∧
             (n ≤ 1)%nat ∧ (n = 1%nat → st.1 !! k = None ∧ is_Some (st'.1 !! k))).
Proof.
  destruct st as [_pools events]. destruct call as [m pid|m pid]; simpl.
  - destruct (_get_pool_spec _pools m pid)
      as (_pools' & p & evs & -> & Hp & _ & Hkeep & Hcount & _).
    simpl. split; [done|]. intros k.
    exists (count_init k evs). rewrite count_init_app. split; [done|].
    rewrite Hcount. case_bool_decide as Hk; [|split; [lia|done]].
    destruct Hk as [-> Hnone]. split; [lia|]. intros _. by rewrite Hp.
  - pose proof (_update_pool_spec _pools m pid) as Hu. cbv zeta in Hu.
    destruct (_update_pool c _pools m pid) as [[_pools' b] evs].
    destruct Hu as (Hp & _ & Hkeep & Hcount). simpl.
    split; [done|]. intros k.
    exists (count_init k evs). rewrite count_init_app. split; [done|].
    rewrite Hcount. case_bool_decide as Hk; [|split; [lia|done]].
    destruct Hk as [-> Hnone]. split; [lia|]. done.
Qed.

Lemma run_pool_calls_invariant calls st k :
  let st' := fold_left (run_pool_call c) calls st in
  (is_Some (st.1 !! k) → is_Some (st'.1 !! k) ∧ count_init k st'.2 = count_init k st.2) ∧
  (st.1 !! k = None → (count_init k st'.2 ≤ count_init k st.2 + 1)%nat).
Proof.
  revert st. induction calls as [|call rest IH]; intros st; simpl; [split; [done|lia]|].
  destruct (run_pool_call_spec st call) as [Hkeep Hcount].
  destruct (Hcount k) as (n & Hn & Hle & Hone).
  destruct (IH (run_pool_call c st call)) as [IHsome IHnone].
  split.
  - intros Hs. destruct (IHsome (Hkeep k Hs)) as [? ->]. split; [done|].
    rewrite Hn. destruct (decide (n = 1%nat)) as [->|]; [|lia].
    destruct (Hone eq_refl) as [Hnone _]. rewrite Hnone in Hs. by destruct Hs.
  - intros Hnone.
    destruct (st.1 !! k) eqn:E; [done|].
    destruct ((run_pool_call c st call).1 !! k) eqn:E'.
    + destruct IHsome as [_ ->]; [done|]. lia.
    + assert (n ≠ 1%nat) by (intros Hn1; destruct (Hone Hn1) as [_ [? ?]]; congruence).
      etrans; [apply IHnone; done|]. lia.
Qed.

(** X15.  Over any sequence of calls of [_get_pool] and of functions under
    [update_pools], a pool is built at most once for a key, and never for a
    key that was cached at the start; a cached key stays cached. *)
Theorem pool_built_at_most_once _pools calls key :
  let '(_pools', events) := run_pool_calls c _pools calls in
  (count_init key events ≤ 1)%nat ∧
  (is_Some (_pools !! key) → count_init key events = 0%nat ∧ is_Some (_pools' !! key)).
Proof.
  pose proof (run_pool_calls_invariant calls (_pools, []) key) as H.
  unfold run_pool_calls. cbv zeta in H.
  destruct (fold_left (run_pool_call c) calls (_pools, [])) as [_pools' events].
  simpl in H. destruct H as [Hsome Hnone]. split.
  - destruct (_pools !! key) eqn:E.
    + destruct Hsome as [_ ->]; [done|]. unfold count_init. simpl. lia.
    + specialize (Hnone eq_refl). unfold count_init in *. simpl in *. lia.
  - intros Hs. destruct (Hsome Hs) as [? ->]. done.
Qed.

End pools.

(** ** [app.py] *)

(** X16.  [ReverseProxied] changes at most the key [wsgi.url_scheme] of
    the request environment: it sets it to the forwarded protocol when that
    header is there and not empty, and passes the environment on as it is
    when it is not.  Passing a request through the wrapper twice is the
    same as once. *)
Theorem ReverseProxied_call_scheme environ :
  (∀ k, k ≠ "wsgi.url_scheme" → ReverseProxied_call environ !! k = environ !! k) ∧
  (∀ scheme, environ !! "HTTP_X_FORWARDED_PROTO" = Some scheme → scheme ≠ "" →
     ReverseProxied_call environ !! "wsgi.url_scheme" = Some scheme) ∧
  (environ !! "HTTP_X_FORWARDED_PROTO" = None ∨
   environ !! "HTTP_X_FORWARDED_PROTO" = Some "" →
     ReverseProxied_call environ = environ) ∧
  ReverseProxied_call (ReverseProxied_call environ) = ReverseProxied_call environ.
Proof.
  unfold ReverseProxied_call at 1 2 3.
  split; [|split; [|split]].
  - intros k Hk. destruct (environ !! "HTTP_X_FORWARDED_PROTO") as [s|]; [|done].
    case_bool_decide; [|done]. by rewrite lookup_insert_ne.
  - intros scheme -> Hs. rewrite bool_decide_eq_true_2 by done.
    by rewrite lookup_insert_eq.
  - intros [->| ->]; done.
  - unfold ReverseProxied_call.
    destruct (environ !! "HTTP_X_FORWARDED_PROTO") as [s|] eqn:E; [|by rewrite E].
    case_bool_decide as Hs; [|rewrite E; by subst s].
    rewrite lookup_insert_ne by done. rewrite E, bool_decide_eq_true_2 by done.
    by rewrite insert_insert_eq.
Qed.

(** ** [CustomNotifyPlugin.instantiate_plugin] *)

(** X17.  [instantiate_plugin] never replaces a schema that is registered:
    every entry of [NOTIFY_SCHEMA_MAP] is still there after the call.  When
    it returns [None] it has changed neither dictionary.  When it returns a
    plugin, the schema was free, the plugin is registered under it, the
    other modules of [NOTIFY_CUSTOM_MODULE_MAP] are untouched, and the
    module of the function keeps its path and the plugins it had. *)
Theorem instantiate_plugin_registers u schema_map module_map url send_func name :
  let '(schema_map', module_map', returned) :=
    instantiate_plugin u schema_map module_map url send_func name in
  (∀ k p, schema_map !! k = Some p → schema_map' !! k = Some p) ∧
  (returned = None → schema_map' = schema_map ∧ module_map' = module_map) ∧
  (∀ wrapper, returned = Some wrapper →
     ∃ plugin_name,
       schema_map !! plugin_name = None ∧
       schema_map' = <[plugin_name := wrapper]> schema_map ∧
       (∀ m, m ≠ fn_module send_func → module_map' !! m = module_map !! m) ∧
       ∃ entry e,
         module_map' !! fn_module send_func = Some entry ∧
         module_notify entry !! plugin_name = Some e ∧ entry_plugin e = wrapper ∧
         (∀ old, module_map !! fn_module send_func = Some old →
            module_path entry = module_path old ∧
            ∀ k, k ≠ plugin_name →
                 module_notify entry !! k = module_notify old !! k)).
Proof.
  unfold instantiate_plugin.
  destruct url as [url|]; [|by repeat split].
  destruct (URL_DETAILS_RE_match u url) as [[schema base]|]; [|by repeat split].
  set (plugin_name := str_lower u schema).
  case_bool_decide as Hin; [by repeat split|].
  assert (schema_map !! plugin_name = None) as Hfree.
  { destruct (schema_map !! plugin_name) eqn:E; [|done]. destruct Hin. eauto. }
  rewrite lookup_insert_eq.
  split; [|split; [done|]].
  - intros k p Hk. rewrite lookup_insert_ne; [done|]. intros <-. congruence.
  - intros wrapper [= <-]. exists plugin_name. split; [done|]. split; [done|].
    destruct (module_map !! fn_module send_func) as [old|] eqn:E.
    + rewrite E. split; [intros m Hm; by rewrite lookup_insert_ne|].
      eexists _, _. rewrite lookup_insert_eq. split; [done|]. simpl.
      rewrite lookup_insert_eq. split; [done|]. split; [done|].
      intros old' [= <-]. split; [done|]. intros k Hk. by rewrite lookup_insert_ne.
    + rewrite lookup_insert_eq.
      split; [intros m Hm; by rewrite !lookup_insert_ne|].
      eexists _, _. rewrite lookup_insert_eq. split; [done|]. simpl.
      rewrite lookup_insert_eq. split; [done|]. split; [done|]. done.
Qed.

(** ** The refiners *)

Lemma getattr_insert (video : gmap string attr) n v a :
  getattr (<[n := v]> video) a = if bool_decide (a = n) then v else getattr video a.
Proof.
  unfold getattr. case_bool_decide as E.
  - subst. by rewrite lookup_insert_eq.
  - by rewrite lookup_insert_ne.
Qed.

Lemma getattr_assign_if c n v (video : gmap string attr) a :
  getattr (assign_if c n v video) a
  = if c && bool_decide (a = n) then v else getattr video a.
Proof.
  unfold assign_if. destruct c; simpl; [apply getattr_insert|done].
Qed.

Lemma lookup_assign_if_ne c n v (video : gmap string attr) a :
  a ≠ n → assign_if c n v video !! a = video !! a.
Proof.
  intros. unfold assign_if. destruct c; [by rewrite lookup_insert_ne|done].
Qed.

Ltac getattr_simpl :=
  repeat (rewrite getattr_assign_if || rewrite getattr_insert);
  repeat match goal with
         | |- context [bool_decide (?a = ?b)] =>
           let r := eval vm_compute in (bool_decide (a = b)) in
           change (bool_decide (a = b)) with r
         end;
  rewrite ?andb_false_r, ?andb_true_r; cbn [andb negb].

(** X18.  [refine_from_db] never replaces what is already known of the file:
    an attribute among source, resolution, the two codecs and the two IMDB
    ids that is true on the video beforehand has the same value afterwards,
    whatever the row holds. *)
Theorem refine_from_db_keeps_known lib kind episode movie video a :
  a ∈ ["source"; "resolution"; "video_codec"; "audio_codec";
       "series_imdb_id"; "imdb_id"] →
  truth (getattr video a) = true →
  getattr (refine_from_db lib kind episode movie video) a = getattr video a.
Proof.
  intros Ha Ht. unfold refine_from_db.
  destruct kind; [destruct episode as [data|]|destruct movie as [data|]|]; try done;
    elem_cases Ha; getattr_simpl; rewrite ?Ht; cbn [andb negb];
    rewrite ?andb_false_r; done.
Qed.

Lemma audio_languages_add_spec x (video video' : gmap string attr) :
  audio_languages_add x video = Some video' →
  ∃ s, getattr video "audio_languages" = ASet s ∧
       video' = <["audio_languages" := ASet ({[ x ]} ∪ s)]> video.
Proof.
  unfold audio_languages_add.
  destruct (getattr video "audio_languages") as [| | | |s]; try done.
  intros [= <-]. by exists s.
Qed.

Lemma audio_languages_loop_spec tracks (video video' : gmap string attr) :
  foldl (λ acc track,
           video ← acc;
           match audio_language track with
           | Some l => audio_languages_add l video
           | None => Some video
           end) (Some video) tracks = Some video' →
  (∀ a, a ≠ "audio_languages" → video' !! a = video !! a) ∧
  (∀ s, getattr video "audio_languages" = ASet s →
        getattr video' "audio_languages"
        = ASet (list_to_set (omap audio_language tracks) ∪ s)).
Proof.
  revert video. induction tracks as [|t tracks IH]; intros video; simpl.
  - intros [= <-]. split; [done|]. intros s ->. f_equal. simpl. by rewrite (left_id_L ∅ (∪)).
  - destruct (audio_language t) as [l|] eqn:El; simpl.
    + destruct (audio_languages_add l video) as [v1|] eqn:E1.
      * intros H. apply IH in H as [H1 H2].
        apply audio_languages_add_spec in E1 as (s0 & Hs0 & ->).
        split.
        -- intros a Ha. rewrite H1 by done. by rewrite lookup_insert_ne.
        -- intros s Hs. rewrite Hs in Hs0. injection Hs0 as <-.
           rewrite (H2 ({[ l ]} ∪ s)).
           ++ f_equal. simpl.
              by rewrite (assoc_L (∪)), (comm_L (∪) _ {[ l ]}).
           ++ by rewrite getattr_insert.
      * intros H. exfalso. clear -H.
        induction tracks as [|t' tracks IH]; simpl in H; [done|auto].
    + apply IH.
Qed.

Lemma audio_languages_loop_total tracks (video : gmap string attr) s :
  getattr video "audio_languages" = ASet s →
  is_Some (foldl (λ acc track,
                    video ← acc;
                    match audio_language track with
                    | Some l => audio_languages_add l video
                    | None => Some video
                    end) (Some video) tracks).
Proof.
  revert video s. induction tracks as [|t tracks IH]; intros video s Hs; simpl.
  - by eexists.
  - destruct (audio_language t) as [l|]; simpl; [|by eapply IH].
    unfold audio_languages_add. rewrite Hs.
    eapply IH. by rewrite getattr_insert.
Qed.

Lemma assign_from_track_lookup field n (video : gmap string attr) a :
  a ≠ n ∨ truth (getattr video n) = true →
  assign_from_track field n video !! a = video !! a.
Proof.
  unfold assign_from_track. destruct field as [v|]; [|done].
  intros [Hne| ->]; [by apply lookup_assign_if_ne|done].
Qed.

Ltac known_attr Ht :=
  unfold getattr in *;
  repeat (rewrite assign_from_track_lookup;
          [|first [left; done
                  |right; unfold getattr;
                   rewrite ?assign_from_track_lookup by (left; done); exact Ht]]).

(** X19.  [refine_from_ffprobe], when it returns, has never replaced what was
    known: resolution, video codec, frame rate and audio codec that are true
    on the video beforehand keep their value, and no attribute other than
    these four and the set of audio languages is touched. *)
Theorem refine_from_ffprobe_keeps_known file_id_is_dict ffprobe video video' :
  refine_from_ffprobe file_id_is_dict ffprobe video = Some video' →
  (∀ a, a ∈ ["resolution"; "video_codec"; "fps"; "audio_codec"] →
        truth (getattr video a) = true →
        getattr video' a = getattr video a) ∧
  (∀ a, a ∉ ["resolution"; "video_codec"; "fps"; "audio_codec"; "audio_languages"] →
        video' !! a = video !! a).
Proof.
  unfold refine_from_ffprobe.
  destruct file_id_is_dict; cbn [negb]; [|by intros [= <-]].
  destruct ffprobe as [data|]; [|by intros [= <-]].
  assert (∀ a, a ∉ ["resolution"; "video_codec"; "fps"; "audio_codec";
                    "audio_languages"] →
               a ≠ "resolution" ∧ a ≠ "video_codec" ∧ a ≠ "fps" ∧
               a ≠ "audio_codec" ∧ a ≠ "audio_languages") as Hout.
  { intros a Ha. repeat split; intros ->; apply Ha; repeat constructor. }
  assert (∀ a, a ∈ ["resolution"; "video_codec"; "fps"; "audio_codec"] →
               a ≠ "audio_languages") as Hin.
  { intros a Ha. elem_cases Ha; done. }
  destruct (ffprobe_video data) as [[|vt vrest]|]; [done| |];
    cbn [mbind option_bind];
    (destruct (ffprobe_audio data) as [[|at_ arest]|]; [done| |]).
  - intros H. apply audio_languages_loop_spec in H as [Hother _]. split.
    + intros a Ha Ht. unfold getattr at 1.
      rewrite Hother by by apply Hin.
      elem_cases Ha; by known_attr Ht.
    + intros a (? & ? & ? & ? & ?)%Hout. rewrite Hother by done.
      by rewrite !assign_from_track_lookup by (by left).
  - intros [= <-]. split.
    + intros a Ha Ht. elem_cases Ha; by known_attr Ht.
    + intros a (? & ? & ? & ? & ?)%Hout.
      by rewrite !assign_from_track_lookup by (by left).
  - intros H. apply audio_languages_loop_spec in H as [Hother _]. split.
    + intros a Ha Ht. unfold getattr at 1.
      rewrite Hother by by apply Hin.
      elem_cases Ha; by known_attr Ht.
    + intros a (? & ? & ? & ? & ?)%Hout. rewrite Hother by done.
      by rewrite !assign_from_track_lookup by (by left).
  - intros [= <-]. split; [done|done].
Qed.

(** X20.  On a video whose audio languages are a set, [refine_from_ffprobe]
    raises exactly when the cached probe lists the video tracks or the audio
    tracks and the list is empty; when it returns, the set of audio languages
    is the former one with the language of every audio track that has one. *)
Theorem refine_from_ffprobe_audio_languages data video s :
  getattr video "audio_languages" = ASet s →
  (refine_from_ffprobe true (Some data) video = None ↔
   ffprobe_video data = Some [] ∨ ffprobe_audio data = Some []) ∧
  (∀ video' tracks,
     refine_from_ffprobe true (Some data) video = Some video' →
     ffprobe_audio data = Some tracks →
     getattr video' "audio_languages"
     = ASet (list_to_set (omap audio_language tracks) ∪ s)).
Proof.
  intros Hs. unfold refine_from_ffprobe. cbn [negb].
  assert (∀ f1 f2 f3 f4 n1 n2 n3 n4,
            n1 ≠ "audio_languages" → n2 ≠ "audio_languages" →
            n3 ≠ "audio_languages" → n4 ≠ "audio_languages" →
            getattr (assign_from_track f4 n4 (assign_from_track f3 n3
                      (assign_from_track f2 n2 (assign_from_track f1 n1 video))))
                    "audio_languages" = ASet s) as Hkeep4.
  { intros. unfold getattr in *.
    by rewrite !assign_from_track_lookup by (left; done). }
  assert (∀ f1 n1, n1 ≠ "audio_languages" →
            getattr (assign_from_track f1 n1 video) "audio_languages" = ASet s)
    as Hkeep1.
  { intros. unfold getattr in *.
    by rewrite !assign_from_track_lookup by (left; done). }
  destruct (ffprobe_video data) as [[|vt vrest]|]; cbn [mbind option_bind].
  - split; [split; [by left|done]|done].
  - destruct (ffprobe_audio data) as [[|at_ arest]|].
    + split; [split; [by right|done]|done].
    + split.
      * split; [|by intros [|]].
        intros H. exfalso.
        destruct (audio_languages_loop_total (at_ :: arest) _ s
                    (Hkeep4 (track_resolution vt) (track_codec vt)
                       (track_frame_rate vt) (audio_codec at_)
                       "resolution" "video_codec" "fps" "audio_codec"
                       ltac:(done) ltac:(done) ltac:(done) ltac:(done)))
          as [v Hv].
        rewrite Hv in H. done.
      * intros video' tracks H [= <-].
        apply audio_languages_loop_spec in H as [_ H]. apply H. by apply Hkeep4.
    + split; [split; [done|by intros [|]]|done].
  - destruct (ffprobe_audio data) as [[|at_ arest]|].
    + split; [split; [by right|done]|done].
    + split.
      * split; [|by intros [|]].
        intros H. exfalso.
        destruct (audio_languages_loop_total (at_ :: arest) _ s
                    (Hkeep1 (audio_codec at_) "audio_codec" ltac:(done)))
          as [v Hv].
        rewrite Hv in H. done.
      * intros video' tracks H [= <-].
        apply audio_languages_loop_spec in H as [_ H]. apply H. by apply Hkeep1.
    + split; [split; [done|by intros [|]]|done].
Qed.

(** X21.  Where the resolution comes from when both refiners run, the
    database first and a probe with a resolution on its first video track
    after it: what the video already had if that is true; otherwise, for a
    movie, the column of the row if it is true and else the probe's value;
    for an episode, [str] of the column (the text None for NULL) if that is
    not empty and else the probe's value. *)
Theorem refine_resolution_precedence lib kind episode movie data track rest r
    video video' :
  ffprobe_video data = Some (track :: rest) →
  track_resolution track = Some r →
  refine_from_ffprobe true (Some data)
    (refine_from_db lib kind (Some episode) (Some movie) video) = Some video' →
  getattr video' "resolution"
  = if truth (getattr video "resolution") then getattr video "resolution"
    else match kind with
         | Movie =>
           if column_truth (movie_resolution movie)
           then column_attr (movie_resolution movie) else r
         | Episode =>
           if bool_decide (column_str (episode_resolution episode) ≠ "")
           then AStr (column_str (episode_resolution episode)) else r
         | Video => r
         end.
Proof.
  intros Hv Hr H.
  set (v1 := refine_from_db lib kind (Some episode) (Some movie) video) in *.
  assert (getattr video' "resolution"
          = if truth (getattr v1 "resolution") then getattr v1 "resolution" else r)
    as ->.
  { revert H. unfold refine_from_ffprobe. cbn [negb]. rewrite Hv.
    cbn [mbind option_bind]. rewrite Hr.
    assert (∀ f2 f3 f4 n2 n3 n4 v,
              n2 ≠ "resolution" → n3 ≠ "resolution" → n4 ≠ "resolution" →
              getattr (assign_from_track f4 n4 (assign_from_track f3 n3
                        (assign_from_track f2 n2 v))) "resolution"
              = getattr v "resolution") as Hkeep.
    { intros. unfold getattr.
      by rewrite !assign_from_track_lookup by (left; done). }
    assert (getattr (assign_from_track (Some r) "resolution" v1) "resolution"
            = if truth (getattr v1 "resolution")
              then getattr v1 "resolution" else r) as Hres.
    { unfold assign_from_track. rewrite getattr_assign_if.
      by destruct (truth (getattr v1 "resolution")). }
    destruct (ffprobe_audio data) as [[|at_ arest]|]; [done| |].
    - intros H. apply audio_languages_loop_spec in H as [Hother _].
      unfold getattr at 1. rewrite Hother by done.
      fold (getattr (assign_from_track (audio_codec at_) "audio_codec"
                      (assign_from_track (track_frame_rate track) "fps"
                        (assign_from_track (track_codec track) "video_codec"
                          (assign_from_track (Some r) "resolution" v1))))
                    "resolution").
      by rewrite Hkeep.
    - intros [= <-].
      unfold getattr at 1.
      rewrite !(assign_from_track_lookup _ "fps"),
              !(assign_from_track_lookup _ "video_codec") by (left; done).
      exact Hres. }
  subst v1. unfold refine_from_db.
  destruct kind; getattr_simpl.
  - destruct (truth (getattr video "resolution")) eqn:Ht; cbn [negb andb].
    + by rewrite Ht.
    + cbn [truth]. by case_bool_decide.
  - destruct (truth (getattr video "resolution")) eqn:Ht; cbn [negb andb].
    + by rewrite Ht.
    + destruct (movie_resolution movie) as [x|]; cbn [column_truth column_attr].
      * case_bool_decide as Hx; cbn [truth].
        -- by rewrite bool_decide_eq_true_2.
        -- by rewrite Ht.
      * by rewrite Ht.
  - by destruct (truth (getattr video "resolution")).
Qed.

(** * The properties at concrete inputs *)

(** The inputs are read on the platform [utc], but for those that name
    another. *)
#[local] Existing Instance utc.

(** ** Inputs on which the specification and the code part ways *)

(** C3: a candidate of a provider whose hashes can be verified, matched by
    hash alone, is skipped although the rule as worded lets it through; a
    hash match of a provider whose hashes cannot be verified goes on to
    scoring although the rule as worded discards it. *)
Lemma series_skip_rule_as_worded_fails :
  let verifiable :=
    {| language := eng; provider_name := "opensubtitles"; hash_verifiable := true;
       get_matches := Some ["hash"]; score := 359; score_without_hash := 0 |} in
  let unverifiable :=
    {| language := eng; provider_name := "napiprojekt"; hash_verifiable := false;
       get_matches := Some ["hash"]; score := 359; score_without_hash := 0 |} in
  (spec_discarded verifiable ["hash"] = false ∧
   candidate_fate_of "series" verifiable = WrongEpisode) ∧
  (spec_discarded unverifiable ["hash"] = true ∧
   candidate_fate_of "series" unverifiable = Scored).
Proof. vm_compute. repeat split. Qed.

(** C4: with a previous score of 0 the search is run with the floor of the
    settings (324), not with 1, and a candidate scoring 5, strictly more
    than 0, is not accepted. *)
Lemma upgrade_previous_score_zero :
  upgrade_one sample_tables
    (sample_world ["opensubtitles"] true [sample_candidate eng 5]) sample_settings
    "series" {| row_language := "en"; row_score := 0 |}
  = Ok [DownloadBest ["opensubtitles"] {[ eng ]} 324 "force non-HI"].
Proof. vm_compute. reflexivity. Qed.


(** C8: with no provider and a video that could not be resolved,
    [generate_subtitles] yields nothing and logs nothing about providers;
    so it does with an empty list of languages. *)
Lemma generate_subtitles_no_providers_no_log :
  providers (sample_world [] false []) = [] ∧
  generate_subtitles sample_tables (sample_world [] false []) sample_settings
    [("en", "False", "False")] "movie" None false = Ok ([], []) ∧
  generate_subtitles sample_tables (sample_world [] true []) sample_settings
    [] "movie" None false = Ok ([], []).
Proof. vm_compute. repeat split. Qed.


(** ** The theorems at work on concrete inputs *)

Lemma is_search_active_not_python_witness :
  (is_search_active sample_settings 1650000000000000 "en" NotPython = Raise SyntaxError ∧
   is_search_active sample_settings 1650000000000000 "en" Malformed = Ok true) ∧
  (let h := AttemptList [("en", 0); ("fr", 5); ("en", timedelta_days 20)] in
   is_search_active sample_settings (timedelta_days 20) "en" h = Ok true ∧
   is_search_active sample_settings (timedelta_days 22) "en" h = Ok false ∧
   is_search_active sample_settings (timedelta_days 27) "en" h = Ok true).
Proof.
  split.
  { destruct (is_search_active_not_python sample_settings 1650000000000000 "en")
      as [H _].
    apply H. reflexivity. }
  intros h.
  assert (earliest "en" (entries h) ("en", 0)) as Hi.
  { split; [vm_compute; left|]. intros x Hx. vm_compute in Hx.
    elem_cases Hx; vm_compute; discriminate. }
  assert (most_recent "en" (entries h) ("en", timedelta_days 20)) as Hl.
  { split; [vm_compute; right; left|]. intros x Hx. vm_compute in Hx.
    elem_cases Hx; vm_compute; discriminate. }
  assert (fromtimestamp ("en", 0).2 = Ok 0) as Hfi by (vm_compute; reflexivity).
  assert (fromtimestamp ("en", timedelta_days 20).2 = Ok (timedelta_days 20)) as Hft
    by (vm_compute; reflexivity).
  assert (datetime_min ≤ 0 + timedelta_weeks 3 ≤ datetime_max) as Hr1
    by (vm_compute; split; discriminate).
  assert (datetime_min ≤ timedelta_days 20 + timedelta_weeks 1 ≤ datetime_max) as Hr2
    by (vm_compute; split; discriminate).
  split; [|split].
  - destruct (is_search_active_not_python sample_settings (timedelta_days 20) "en")
      as (_ & _ & H).
    destruct (H h) as (_ & _ & _ & _ & Hp).
    destruct (Hp _ _ _ _ _ _ eq_refl Hi Hl Hfi Hft eq_refl eq_refl) as [_ Hq].
    destruct (Hq Hr1) as [Hy _]. apply Hy. reflexivity.
  - destruct (is_search_active_not_python sample_settings (timedelta_days 22) "en")
      as (_ & _ & H).
    destruct (H h) as (_ & _ & _ & _ & Hp).
    destruct (Hp _ _ _ _ _ _ eq_refl Hi Hl Hfi Hft eq_refl eq_refl) as [_ Hq].
    destruct (Hq Hr1) as [_ Ho].
    destruct Ho as [_ Hs]; [vm_compute; discriminate|].
    destruct (Hs Hr2) as [_ Hb]. apply Hb. reflexivity.
  - destruct (is_search_active_not_python sample_settings (timedelta_days 27) "en")
      as (_ & _ & H).
    destruct (H h) as (_ & _ & _ & _ & Hp).
    destruct (Hp _ _ _ _ _ _ eq_refl Hi Hl Hfi Hft eq_refl eq_refl) as [_ Hq].
    destruct (Hq Hr1) as [_ Ho].
    destruct Ho as [_ Hs]; [vm_compute; discriminate|].
    destruct (Hs Hr2) as [Hd _]. apply Hd. vm_compute; discriminate.
Defined.

Lemma updateFailedAttempts_retention_witness :
  let h := AttemptList [("fr", 5); ("en", 9); ("fr", 3); ("en", 4); ("de", 7)] in
  (∀ L, (length (matching L (entries h)) ≤ 2)%nat) ∧
  ∃ updated,
    updateFailedAttempts 100 "en" h = AttemptList updated ∧
    (∀ L, (length (matching L updated) ≤ 2)%nat) ∧
    Sorted (λ x y, String.leb x.1 y.1 = true) updated.
Proof.
  intros h.
  assert (∀ L, (length (matching L (entries h)) ≤ 2)%nat) as Hinv.
  { intros L. unfold matching, h. simpl entries.
    rewrite !filter_cons, filter_nil. simpl.
    repeat case_decide; simplify_eq; simpl; lia. }
  split; [exact Hinv|].
  destruct (updateFailedAttempts_retention 100 "en" h Hinv)
    as (updated & Hu & Hlen & _ & _ & _ & Hsorted).
  exists updated. auto.
Defined.

Lemma series_skip_rule_witness :
  candidate_fate_of "series" (sample_candidate eng 300) = Scored.
Proof.
  destruct (series_skip_rule (sample_candidate eng 300)) as [H _].
  destruct (H ["series"; "season"; "episode"] eq_refl) as [_ Hscored].
  apply Hscored. right. done.
Defined.

Lemma upgrade_strictly_better_witness :
  let w := sample_world ["opensubtitles"] true [sample_candidate eng 355] in
  let row := {| row_language := "en"; row_score := 350 |} in
  row_score row ≠ 0 ∧ providers w ≠ [] ∧ get_video w = true ∧
  ∃ s, s ∈ offered w ∧ row_score row < score s ∧
    upgrade_one sample_tables w sample_settings "series" row
    = Ok [DownloadBest ["opensubtitles"]
            (language_set (generate_loop sample_tables [upgrade_language_tuple "en"]))
            351 "force non-HI";
          HistoryLog 3 (language_code (result_of sample_tables true s)) (score s)].
Proof.
  intros w row.
  assert (row_score row ≠ 0) as Hs by (vm_compute; discriminate).
  assert (providers w ≠ []) as Hp by discriminate.
  split; [exact Hs|]. split; [exact Hp|]. split; [reflexivity|].
  destruct (upgrade_strictly_better sample_tables w sample_settings "series" row
              (324, 360, ["hash"; "series"; "season"; "episode"])
              Hs Hp eq_refl eq_refl) as (_ & _ & H & _).
  apply (H (sample_candidate eng 355)).
  - left.
  - vm_compute. reflexivity.
  - vm_compute. reflexivity.
  - reflexivity.
Defined.


Lemma generate_subtitles_language_set_witness :
  _wanted_movie sample_tables (sample_world ["opensubtitles"] true [])
    sample_settings 0 ["en:forced"] ["en:forced"] Malformed
  = Ok (AttemptList [("en:forced", 0)],
        [DownloadBest ["opensubtitles"]
           {[ {| basename := "eng"; forced := true; hi := false |} ]}
           84 "force non-HI"]).
Proof.
  destruct (generate_subtitles_language_set sample_tables) as (_ & _ & _ & H).
  destruct (H (sample_world ["opensubtitles"] true []) sample_settings 0 Malformed
              (84, 120, ["hash"; "series"; "season"; "episode"]))
    as (results & Hres & Hrun);
    [reflexivity|reflexivity|discriminate|reflexivity|].
  destruct results as [|r results].
  - exact Hrun.
  - apply Forall_cons in Hres as [(s & Hs & _) _]. by apply elem_of_nil in Hs.
Defined.


Lemma no_providers_no_query_witness :
  generate_subtitles sample_tables (sample_world [] true []) sample_settings
    [("en", "False", "False")] "movie" None false
  = Ok ([], [Log throttled_msg]).
Proof.
  destruct (no_providers_no_query sample_tables (sample_world [] true [])
              sample_settings "movie") as [H _].
  destruct (H [("en", "False", "False")] None false
              (84, 120, ["hash"; "series"; "season"; "episode"])
              eq_refl eq_refl) as (trace & -> & _ & Htrace).
  rewrite Htrace; [reflexivity|discriminate|reflexivity].
Defined.


Lemma forced_minimum_score_zero_witness :
  ∃ results,
    generate_subtitles sample_tables
      (sample_world ["opensubtitles"] true [sample_candidate eng 5]) sample_settings
      [("en", "False", "False")] "series" (Some 0) true
    = Ok (results,
          [DownloadBest ["opensubtitles"]
             (language_set (generate_loop sample_tables [("en", "False", "False")]))
             324 (loop_hi (generate_loop sample_tables [("en", "False", "False")]))]).
Proof.
  destruct (forced_minimum_score_zero sample_tables
              (sample_world ["opensubtitles"] true [sample_candidate eng 5])
              sample_settings [("en", "False", "False")] "series" true) as (_ & H & _).
  apply (H 324 360 ["hash"; "series"; "season"; "episode"]);
    [discriminate|reflexivity|discriminate|reflexivity].
Defined.

(** ** The further properties at concrete inputs *)

(** Blocked on day 25: inside both windows. *)
Lemma is_search_active_false_only_in_window_witness :
  let h := AttemptList [("en", 0); ("fr", 5); ("en", timedelta_days 22)] in
  is_search_active sample_settings (timedelta_days 25) "en" h = Ok false ∧
  ∃ initial latest i t delay_window delta_window,
    earliest "en" (entries h) initial ∧ most_recent "en" (entries h) latest ∧
    fromtimestamp initial.2 = Ok i ∧
    fromtimestamp latest.2 = Ok t ∧
    extended_search_window (adaptive_searching_delay sample_settings)
      = Ok (Some delay_window) ∧
    extended_search_window (adaptive_searching_delta sample_settings)
      = Ok (Some delta_window) ∧
    i + delay_window ≤ timedelta_days 25 < t + delta_window.
Proof.
  intros h.
  assert (is_search_active sample_settings (timedelta_days 25) "en" h = Ok false)
    as Hf by (vm_compute; reflexivity).
  split; [exact Hf|].
  destruct (is_search_active_false_only_in_window sample_settings
              (timedelta_days 25) "en" h Hf) as [_ H].
  exact H.
Defined.

Lemma is_search_active_other_language_witness :
  let h := AttemptList [("en", 0); ("fr", 5); ("en", timedelta_days 22)] in
  is_search_active sample_settings (timedelta_days 25) "en"
    (updateFailedAttempts (timedelta_days 24) "fr" h)
  = is_search_active sample_settings (timedelta_days 25) "en" h.
Proof.
  intros h.
  destruct (is_search_active_other_language sample_settings (timedelta_days 25)
              (timedelta_days 24) "en" "fr" h h) as [_ H].
  apply H. discriminate.
Defined.

Lemma record_attempts_keeps_first_and_last_witness :
  let h := AttemptList [("en", 0); ("fr", 5)] in
  matching "en" (entries (record_attempts [10; 20; 30] "en" h))
  = [("en", 0); ("en", 30)].
Proof.
  intros h.
  destruct (record_attempts_keeps_first_and_last [10; 20; 30] "en" h 30 eq_refl)
    as [H _].
  apply (H ("en", 0)).
  - split; [vm_compute; left|]. intros x Hx. vm_compute in Hx.
    elem_cases Hx; vm_compute; discriminate.
  - repeat constructor; simpl; lia.
Defined.

Lemma updateFailedAttempts_growth_witness :
  let h := AttemptList [("en", 0); ("fr", 5); ("en", 9)] in
  (length (entries (updateFailedAttempts 100 "en" h)) ≤ length (entries h))%nat.
Proof.
  intros h.
  destruct (updateFailedAttempts_growth 100 "en" h) as (_ & _ & H).
  apply H. vm_compute. lia.
Defined.

Lemma extended_search_window_bound_witness :
  0 ≤ timedelta_days 3 ≤ timedelta_weeks 9 ∧ timedelta_days 3 ≤ timedelta_days 9.
Proof.
  destruct (extended_search_window_bound "3d" (timedelta_days 3) eq_refl) as [H1 H2].
  split; [exact H1|]. apply H2. reflexivity.
Defined.

Lemma _wanted_languages_last_write_witness :
  ∃ column,
    _wanted_languages sample_settings 0 ["en"; "fr"] ["en"; "fr"] Malformed Malformed
    = Ok ([("en", "False", "False"); ("fr", "False", "False")], column) ∧
    column = updateFailedAttempts 0 "fr" Malformed.
Proof.
  destruct (_wanted_languages_last_write sample_settings 0 ["en"; "fr"] ["en"; "fr"]
              Malformed) as (column & H1 & _ & H3 & _).
  - intros L HL _. elem_cases HL; eexists; reflexivity.
  - exists column. split; [exact H1|]. apply H3. reflexivity.
Defined.

Lemma language_token_round_trip_witness :
  language_tuple "en:hi" = ("en", "True", "False") ∧
  history_language_code "en" false true = "en:hi".
Proof.
  destruct (language_token_round_trip "en" eq_refl) as (_ & H & _). exact H.
Defined.

(** A history row in Hindi, whose code is [hi], is searched again as
    hearing-impaired. *)
Lemma upgrade_language_tuple_reads_suffix_witness :
  upgrade_language_tuple "hi" = ("hi", "True", "False").
Proof.
  destruct (upgrade_language_tuple_reads_suffix "hi" eq_refl) as (_ & _ & _ & H).
  apply H; reflexivity.
Defined.

Lemma manual_search_result_witness :
  let w := sample_world ["opensubtitles"] true
             [sample_candidate eng 300; sample_candidate eng 350] in
  ∃ found trace,
    manual_search sample_tables w sample_settings [] ["opensubtitles"] "series"
    = Ok (Some found, trace) ∧
    Sorted score_key_ge found.
Proof.
  intros w.
  destruct (manual_search_result sample_tables w sample_settings [] ["opensubtitles"]
              "series" (324, 360, ["hash"; "series"; "season"; "episode"]))
    as (found & trace & H1 & _ & _ & H4);
    [discriminate|reflexivity|reflexivity|reflexivity|].
  exists found, trace. split; [exact H1|exact H4].
Defined.

(** Two episodes: nothing is missing for the first, and no provider is left
    when the second is reached. *)
Lemma series_download_subtitles_throttled_witness :
  let e := {| episode_missing_subtitles := []; episode_confirmed_missing_subs := [];
              episode_world := sample_world [] true [] |} in
  let gp := λ i : nat, match i with O => ["opensubtitles"] | _ => [] end in
  let id := "series_search_progress_" +:+ pretty 7 in
  series_download_subtitles sample_tables sample_settings 7 [e; e] gp
  = Ok [ShowProgress id 0 2; Info throttled_msg; HideProgress id].
Proof.
  intros e gp id.
  pose proof (series_download_subtitles_throttled sample_tables sample_settings 7 gp)
    as H.
  cbv zeta in H. destruct H as [H _].
  apply (H [e] e []).
  - intros j Hj. destruct j; [discriminate|simpl in Hj; lia].
  - reflexivity.
Defined.

Lemma wanted_search_missing_subtitles_series_throttled_witness :
  let gp := λ i : nat, match i with O => ["opensubtitles"] | _ => [] end in
  let wd := λ _ : Z, Ok [] in
  wanted_search_missing_subtitles_series [1; 2; 3] gp wd
  = Ok [ShowProgress "wanted_episodes_progress" 0 3;
        ShowProgress "wanted_episodes_progress" 1 3; Info throttled_msg].
Proof.
  intros gp wd.
  pose proof (wanted_search_missing_subtitles_series_throttled [1] 2 [3] gp wd) as H.
  cbv zeta in H. destruct H as [H _].
  - intros j Hj. destruct j; [discriminate|simpl in Hj; lia].
  - reflexivity.
  - exact H.
Defined.

Lemma to_upgrade_selection_witness :
  let row := λ timestamp score action exist,
    {| upgradable_timestamp := timestamp; upgradable_score := score;
       upgradable_action := action; upgradable_subtitles_exist := exist |} in
  let rows := [row 10 (Some 300) 1 true; row 10 (Some 358) 1 true;
               row 10 (Some 100) 2 false; row 0 (Some 10) 1 true;
               row 10 None 1 true] in
  to_upgrade 357 (upgradable_not_perfect 360 5 true rows) = [row 10 (Some 300) 1 true].
Proof.
  intros row rows.
  destruct (to_upgrade_selection 357 360 5 true rows) as [H _]; [lia|].
  rewrite H. reflexivity.
Defined.

Lemma _get_pool_cached_witness :
  let c := {| init_pool := λ _ _, Some 0; pool_update := λ p _ _, (p + 1, true) |} in
  ∃ _pools' p events,
    _get_pool c ∅ "movie" None = Some (_pools', p, events) ∧
    ∃ rest, events = InitPool "movie_" :: rest.
Proof.
  intros c.
  pose proof (_get_pool_cached c ∅ "movie" None) as H.
  cbv zeta in H. destruct H as (m & p & ev & H1 & _ & _ & _ & H5).
  exists m, p, ev. split; [exact H1|]. apply H5. apply lookup_empty.
Defined.

Lemma pool_built_at_most_once_witness :
  let c := {| init_pool := λ _ _, Some 0; pool_update := λ p _ _, (p + 1, true) |} in
  let _pools : gmap string (option Z) := <["movie_" := Some 5]> ∅ in
  count_init "movie_"
    (run_pool_calls c _pools [GetPool "movie" None; UpdatePools "movie" None]).2
  = 0%nat.
Proof.
  intros c _pools.
  pose proof (pool_built_at_most_once c _pools
                [GetPool "movie" None; UpdatePools "movie" None] "movie_") as H.
  destruct (run_pool_calls c _pools [GetPool "movie" None; UpdatePools "movie" None])
    as [_pools' events].
  destruct H as [_ H]. apply H.
  unfold _pools. rewrite lookup_insert_eq. by eexists.
Defined.

Lemma ReverseProxied_call_scheme_witness :
  ReverseProxied_call (<["HTTP_X_FORWARDED_PROTO" := "https"]> ∅) !! "wsgi.url_scheme"
  = Some "https".
Proof.
  destruct (ReverseProxied_call_scheme (<["HTTP_X_FORWARDED_PROTO" := "https"]> ∅))
    as (_ & H & _).
  apply H; [apply lookup_insert_eq|discriminate].
Defined.

Lemma instantiate_plugin_registers_witness :
  let u := {| URL_DETAILS_RE_match := λ url, Some (url, "");
              str_lower := λ s, s; parse_url := λ url _, url |} in
  let send_func := {| fn_name := "my_wrapper"; fn_module := "hooks";
                      fn_file := "/config/hooks.py" |} in
  ∃ schema_map module_map wrapper,
    instantiate_plugin u ∅ ∅ (Some "foobar") send_func None
    = (schema_map, module_map, Some wrapper) ∧
    schema_map = <["foobar" := wrapper]> ∅ ∧
    ∃ entry e, module_map !! "hooks" = Some entry ∧
               module_notify entry !! "foobar" = Some e ∧ entry_plugin e = wrapper.
Proof.
  intros u send_func.
  pose proof (instantiate_plugin_registers u ∅ ∅ (Some "foobar") send_func None) as H.
  destruct (instantiate_plugin u ∅ ∅ (Some "foobar") send_func None)
    as [[schema_map module_map] returned] eqn:E.
  assert (∃ wrapper, returned = Some wrapper) as [wrapper ->].
  { apply (f_equal snd) in E. unfold instantiate_plugin in E. cbn in E.
    rewrite lookup_empty in E. cbn in E.
    rewrite lookup_insert_eq in E. rewrite <- E. by eexists. }
  destruct H as (_ & _ & H).
  destruct (H wrapper eq_refl) as (plugin_name & Hfree & Hmap & _ & entry & e & H1 & H2 & H3 & _).
  exists schema_map, module_map, wrapper. split; [done|].
  assert (plugin_name = "foobar") as ->.
  { apply (f_equal (λ x, x.1.1)) in E. unfold instantiate_plugin in E. cbn in E.
    rewrite lookup_empty in E. cbn in E. rewrite Hmap in E.
    destruct (decide (plugin_name = "foobar")) as [|Hne]; [done|].
    apply (f_equal (λ m, m !! "foobar")) in E.
    rewrite lookup_insert_eq, lookup_insert_ne, lookup_empty in E by done. done. }
  split; [exact Hmap|]. exists entry, e. done.
Defined.

(** A movie whose file name gave 1080p keeps it though the database says
    720p. *)
Lemma refine_from_db_keeps_known_witness :
  let lib := {| guessit := λ _ _, None; re_sub_year := λ s, s |} in
  let movie := {| movie_title := "Heat (1995)"; alternativeTitles := [];
                  movie_format := Some "Bluray"; movie_resolution := Some "720p";
                  movie_video_codec := None; movie_audio_codec := None;
                  movie_imdbId := Some "tt0113277" |} in
  let video : gmap string attr := <["resolution" := AStr "1080p"]> ∅ in
  getattr (refine_from_db lib Movie None (Some movie) video) "resolution" = AStr "1080p".
Proof.
  intros lib movie video.
  assert (getattr video "resolution" = AStr "1080p") as Hv.
  { unfold video. by rewrite getattr_insert. }
  rewrite <- Hv.
  apply (refine_from_db_keeps_known lib Movie None (Some movie) video "resolution").
  - right. left.
  - rewrite Hv. reflexivity.
Defined.

Lemma refine_from_ffprobe_keeps_known_witness :
  let data := {| ffprobe_video :=
                   Some [{| track_resolution := Some (AStr "720p");
                            track_codec := Some (AStr "H.264");
                            track_frame_rate := Some (AInt 25) |}];
                 ffprobe_audio := None |} in
  let video : gmap string attr := <["resolution" := AStr "1080p"]> ∅ in
  ∃ video', refine_from_ffprobe true (Some data) video = Some video' ∧
            getattr video' "resolution" = AStr "1080p" ∧
            video' !! "title" = None.
Proof.
  intros data video.
  assert (getattr video "resolution" = AStr "1080p") as Hv.
  { unfold video. by rewrite getattr_insert. }
  destruct (refine_from_ffprobe true (Some data) video) as [video'|] eqn:E;
    [|discriminate E].
  destruct (refine_from_ffprobe_keeps_known true (Some data) video video' E)
    as [Hknown Hother].
  exists video'. split; [done|]. split.
  - rewrite <- Hv. apply Hknown; [left|]. rewrite Hv. reflexivity.
  - rewrite Hother.
    + unfold video. rewrite lookup_insert_ne by done. apply lookup_empty.
    + intros Ha.
      repeat (apply elem_of_cons in Ha as [Ha|Ha]; [discriminate Ha|]).
      by apply elem_of_nil in Ha.
Defined.

Lemma refine_from_ffprobe_audio_languages_witness :
  let tracks := [{| audio_codec := Some (AStr "AAC"); audio_language := Some "eng" |};
                 {| audio_codec := None; audio_language := None |};
                 {| audio_codec := None; audio_language := Some "fra" |}] in
  let data := {| ffprobe_video := None; ffprobe_audio := Some tracks |} in
  let video : gmap string attr := <["audio_languages" := ASet {[ "deu" ]}]> ∅ in
  ∃ video', refine_from_ffprobe true (Some data) video = Some video' ∧
            getattr video' "audio_languages"
            = ASet (list_to_set ["eng"; "fra"] ∪ {[ "deu" ]}).
Proof.
  intros tracks data video.
  assert (getattr video "audio_languages" = ASet {[ "deu" ]}) as Hv.
  { unfold video. by rewrite getattr_insert. }
  destruct (refine_from_ffprobe_audio_languages data video {[ "deu" ]} Hv)
    as [Hnone Hsome].
  destruct (refine_from_ffprobe true (Some data) video) as [video'|] eqn:E.
  - exists video'. split; [done|]. apply (Hsome video' tracks eq_refl eq_refl).
  - destruct Hnone as [Hnone _]. destruct (Hnone eq_refl) as [H|H]; discriminate H.
Defined.

(** A movie without a resolution from its name or from the database takes
    the one of the probe. *)
Lemma refine_resolution_precedence_witness :
  let lib := {| guessit := λ _ _, None; re_sub_year := λ s, s |} in
  let episode := {| seriesTitle := ""; data_season := 1; data_episode := 1;
                    episodeTitle := None; tvdbId := 0; alternateTitles := [];
                    episode_format := None; episode_resolution := None;
                    episode_video_codec := None; episode_audio_codec := None;
                    episode_imdbId := None |} in
  let movie := {| movie_title := "Heat (1995)"; alternativeTitles := [];
                  movie_format := None; movie_resolution := None;
                  movie_video_codec := None; movie_audio_codec := None;
                  movie_imdbId := None |} in
  let track := {| track_resolution := Some (AStr "1080p"); track_codec := None;
                  track_frame_rate := None |} in
  let data := {| ffprobe_video := Some [track]; ffprobe_audio := None |} in
  ∃ video',
    refine_from_ffprobe true (Some data)
      (refine_from_db lib Movie (Some episode) (Some movie) ∅) = Some video' ∧
    getattr video' "resolution" = AStr "1080p".
Proof.
  intros lib episode movie track data.
  destruct (refine_from_ffprobe true (Some data)
              (refine_from_db lib Movie (Some episode) (Some movie) ∅))
    as [video'|] eqn:E; [|discriminate E].
  exists video'. split; [done|].
  rewrite (refine_resolution_precedence lib Movie episode movie data track []
             (AStr "1080p") ∅ video' eq_refl eq_refl E).
  reflexivity.
Defined.
